(** * graphics-go: the affine transform of [graphics/affine.go]

    A shallow embedding of the 3x3 affine matrices of package [graphics] and
    of the pixel loop that resamples a source image into a destination image.

    - Go's [float64] is IEEE 754 binary64 with round-to-nearest-even; it is
      modelled by Rocq's primitive [float], whose operations are specified
      by [SpecFloat].  Every float expression is evaluated operation by
      operation, each one rounded (no fused multiply-add), as the gc
      compiler does on amd64.
    - Go's [int] is taken to be 64 bits wide.
    - An image argument is a reference into a store of images; an interface
      value that is not nil refers to an image.  In the first store every
      image has pixels of its own; module [Shared] has the store in which
      [*image.RGBA] values share pixel buffers, as an image and its
      [SubImage] do, and what depends on the sharing is stated there.
    - [math.Sincos] and the sampler [binterpRGBA] are parameters;
      [image.NewRGBA] and [draw.Draw] of the standard library are modelled
      by what they do to the pixels, and are taken to succeed. *)

From Stdlib Require Import ZArith QArith Floats Lia List String Bool.
Import ListNotations.

#[local] Open Scope Z_scope.
#[local] Open Scope float_scope.

(** ** float64 *)

(** The conversion [float64(n)] of an integer: the nearest binary64 value,
    ties to even. *)
Definition float64_of_int (n : Z) : float :=
  SF2Prim (binary_normalize prec emax n 0 false).

(** Go's [x >= y] on float64. *)
Definition geb (x y : float) : bool := (y <=? x).

(** A zero or a finite non-zero number: neither NaN nor an infinity. *)
Definition finite (x : float) : bool :=
  match Prim2SF x with
  | S754_zero _ | S754_finite _ _ _ => true
  | S754_infinity _ | S754_nan => false
  end.

Definition isNaN (x : float) : bool :=
  match Prim2SF x with
  | S754_nan => true
  | _ => false
  end.

Definition isInf (x : float) : bool :=
  match Prim2SF x with
  | S754_infinity _ => true
  | _ => false
  end.

(** The real number a float stands for; [None] for NaN and the infinities.
    A finite float [(-1)^s * m * 2^e] of binary64 has [e >= -1074], so it
    is an integer multiple of [2^-1074]: [scaled] is that integer and
    [real_of_float] the rational [scaled / 2^1074]. *)
Definition scaled (x : spec_float) : option Z :=
  match x with
  | S754_zero _ => Some 0%Z
  | S754_finite s m e => Some (cond_Zopp s (Zpos m * 2 ^ (e + 1074)))%Z
  | S754_infinity _ | S754_nan => None
  end.

Definition denom1074 : positive := Eval vm_compute in (2 ^ 1074)%positive.

Definition real_of_float (x : float) : option Q :=
  match scaled (Prim2SF x) with
  | Some n => Some (n # denom1074)
  | None => None
  end.

(** The order of the floats that are not NaN, on integers: a number is sent
    to its multiple of [2^-1074], the infinities beyond every number. *)
Definition BIG : Z := (2 ^ 2098)%Z.

Definition key (x : spec_float) : Z :=
  match x with
  | S754_zero _ => 0%Z
  | S754_finite s m e => cond_Zopp s (Zpos m * 2 ^ (e + 1074))%Z
  | S754_infinity false => BIG
  | S754_infinity true => (- BIG)%Z
  | S754_nan => 0%Z
  end.

(** A zero, or a number whose exponent is at most [E]. *)
Definition exp_le (E : Z) (u : spec_float) : Prop :=
  match u with
  | S754_zero _ => True
  | S754_finite _ _ e => (e <= E)%Z
  | S754_infinity _ | S754_nan => False
  end.

(** [float64(c)] is the integer [c] itself. *)
Definition exact_int (c : Z) : Prop :=
  scaled (Prim2SF (float64_of_int c)) = Some (c * 2 ^ 1074)%Z.

(** The integers every one of which float64 holds exactly. *)
Definition representable (c : Z) : Prop := (- 2 ^ 53 <= c <= 2 ^ 53)%Z.

(** ** Integers: Go's [int], two's complement on 64 bits *)

Definition wrap64 (z : Z) : Z := ((z + 2 ^ 63) mod 2 ^ 64 - 2 ^ 63)%Z.

(** ** image.Point and image.Rectangle *)

Record Point := mkPoint { X : Z; Y : Z }.

Record Rectangle := mkRect { Min : Point; Max : Point }.

Definition Dx (r : Rectangle) : Z := wrap64 (X (Max r) - X (Min r)).
Definition Dy (r : Rectangle) : Z := wrap64 (Y (Max r) - Y (Min r)).

(** [image.Rect(x0, y0, x1, y1)] on ordered coordinates. *)
Definition Rect (x0 y0 x1 y1 : Z) : Rectangle :=
  mkRect (mkPoint x0 y0) (mkPoint x1 y1).

(** The coordinates are values of Go's [int]. *)
Definition is_int (z : Z) : Prop := (- 2 ^ 63 <= z < 2 ^ 63)%Z.

Definition int_rect (r : Rectangle) : Prop :=
  is_int (X (Min r)) /\ is_int (X (Max r)) /\
  is_int (Y (Min r)) /\ is_int (Y (Max r)).

(** The coordinates are integers float64 holds exactly. *)
Definition representable_rect (b : Rectangle) : Prop :=
  representable (X (Min b)) /\ representable (X (Max b)) /\
  representable (Y (Min b)) /\ representable (Y (Max b)).

(** ** Affine: [type Affine [9]float64], [M(i,j)] is [Affine[i*3+j]] *)

Record Affine := mkAffine {
  el0 : float; el1 : float; el2 : float;
  el3 : float; el4 : float; el5 : float;
  el6 : float; el7 : float; el8 : float
}.

(** [I] is the identity matrix. *)
Definition I : Affine :=
  mkAffine 1 0 0
           0 1 0
           0 0 1.

(** [func (a Affine) Mul(b Affine) Affine] *)
Definition Mul (a b : Affine) : Affine :=
  mkAffine
    (el0 a * el0 b + el1 a * el3 b + el2 a * el6 b)
    (el0 a * el1 b + el1 a * el4 b + el2 a * el7 b)
    (el0 a * el2 b + el1 a * el5 b + el2 a * el8 b)
    (el3 a * el0 b + el4 a * el3 b + el5 a * el6 b)
    (el3 a * el1 b + el4 a * el4 b + el5 a * el7 b)
    (el3 a * el2 b + el4 a * el5 b + el5 a * el8 b)
    (el6 a * el0 b + el7 a * el3 b + el8 a * el6 b)
    (el6 a * el1 b + el7 a * el4 b + el8 a * el7 b)
    (el6 a * el2 b + el7 a * el5 b + el8 a * el8 b).

(** [func (a Affine) Scale(x, y float64) Affine] *)
Definition Scale (a : Affine) (x y : float) : Affine :=
  Mul a (mkAffine (1 / x) 0 0
                  0 (1 / y) 0
                  0 0 1).

(** [func (a Affine) Shear(x, y float64) Affine] *)
Definition Shear (a : Affine) (x y : float) : Affine :=
  let d := 1 - x * y in
  Mul a (mkAffine (1 / d) ((- x) / d) 0
                  ((- y) / d) (1 / d) 0
                  0 0 1).

(** [func (a Affine) Translate(x, y float64) Affine] *)
Definition Translate (a : Affine) (x y : float) : Affine :=
  Mul a (mkAffine 1 0 (- x)
                  0 1 (- y)
                  0 0 1).

(** [func (a Affine) Center(x, y float64) Affine] *)
Definition Center (a : Affine) (x y : float) : Affine :=
  Translate (Mul (Translate I (- x) (- y)) a) x y.

(** [func (a Affine) CenterFit(dst, src image.Rectangle) Affine] *)
Definition CenterFit (a : Affine) (dst src : Rectangle) : Affine :=
  let dx := float64_of_int (X (Min dst)) + float64_of_int (Dx dst) / 2 in
  let dy := float64_of_int (Y (Min dst)) + float64_of_int (Dy dst) / 2 in
  let sx := float64_of_int (X (Min src)) + float64_of_int (Dx src) / 2 in
  let sy := float64_of_int (Y (Min src)) + float64_of_int (Dy src) / 2 in
  Translate (Mul (Translate I (- sx) (- sy)) a) dx dy.

(** [func (a Affine) pt(x0, y0 int) (x1, y1 float64)] *)
Definition pt (a : Affine) (x0 y0 : Z) : float * float :=
  let fx := float64_of_int x0 + 0.5 in
  let fy := float64_of_int y0 + 0.5 in
  let x1 := fx * el0 a + fy * el1 a + el2 a in
  let y1 := fx * el3 a + fy * el4 a + el5 a in
  (x1, y1).

(** [func inBounds(b image.Rectangle, x, y float64) bool] *)
Definition inBounds (b : Rectangle) (x y : float) : bool :=
  if (x <? float64_of_int (X (Min b))) || geb x (float64_of_int (X (Max b)))
  then false
  else if (y <? float64_of_int (Y (Min b))) || geb y (float64_of_int (Y (Max b)))
  then false
  else true.

Section Rotation.

(** [math.Sincos] of Go's standard library. *)
Variable Sincos : float -> float * float.

(** [func (a Affine) Rotate(angle float64) Affine] *)
Definition Rotate (a : Affine) (angle : float) : Affine :=
  let '(s, c) := Sincos angle in
  Mul a (mkAffine c s 0
                  (- s) c 0
                  0 0 1).

End Rotation.

(** ** Images

    [color.RGBA]: four 8-bit channels. *)
Record Color := mkColor { cR : Z; cG : Z; cB : Z; cA : Z }.

Definition transparent : Color := mkColor 0 0 0 0.

(** [(x, y)] lies in the half-open rectangle [r]: [image.Point.In]. *)
Definition inRect (r : Rectangle) (x y : Z) : bool :=
  (X (Min r) <=? x)%Z && (x <? X (Max r))%Z &&
  (Y (Min r) <=? y)%Z && (y <? Y (Max r))%Z.

(** [*image.RGBA], the pixel buffer the loop writes to.  The buffer is kept
    as the color stored at each coordinate instead of the [Pix]/[Stride]
    byte layout, which [affine.go] never touches. *)
Record RGBA := mkRGBA { RGBA_Rect : Rectangle; RGBA_Pix : Z -> Z -> Color }.

(** Any other implementation of [image.Image]/[draw.Image]: its bounds, the
    color [At] returns (seen through [color.RGBAModel]) and the conversion
    of its color model, which [Set] applies to the color it is given. *)
Record Generic := mkGeneric {
  G_Bounds : Rectangle;
  G_At : Z -> Z -> Color;
  G_Convert : Color -> Color
}.

Inductive Image :=
| IRGBA (r : RGBA)
| IGeneric (g : Generic).

Definition Bounds (i : Image) : Rectangle :=
  match i with
  | IRGBA r => RGBA_Rect r
  | IGeneric g => G_Bounds g
  end.

Definition At (i : Image) (x y : Z) : Color :=
  match i with
  | IRGBA r => if inRect (RGBA_Rect r) x y then RGBA_Pix r x y else transparent
  | IGeneric g => G_At g x y
  end.

(** [image.NewRGBA(r)]: a buffer of zeroes. *)
Definition NewRGBA (r : Rectangle) : RGBA := mkRGBA r (fun _ _ => transparent).

(** [draw.Draw(dst, r, src, sp, draw.Src)] of Go's standard library: [r] is
    clipped to the bounds of [dst] and to those of [src] moved by
    [r.Min - sp], and every pixel of the clipped rectangle is set from
    [src].  [drawn] is the color the destination is given at [(x, y)], if
    any. *)
Definition drawn (dstb r : Rectangle) (src : Image) (sp : Point) (x y : Z) : option Color :=
  let ox := (X sp - X (Min r))%Z in
  let oy := (Y sp - Y (Min r))%Z in
  if inRect r x y && inRect dstb x y && inRect (Bounds src) (x + ox) (y + oy)
  then Some (At src (x + ox) (y + oy))
  else None.

Definition draw_RGBA (d : RGBA) (r : Rectangle) (src : Image) (sp : Point) : RGBA :=
  mkRGBA (RGBA_Rect d)
    (fun x y => match drawn (RGBA_Rect d) r src sp x y with
                | Some c => c
                | None => RGBA_Pix d x y
                end).

Definition draw_Generic (g : Generic) (r : Rectangle) (src : Image) (sp : Point) : Generic :=
  mkGeneric (G_Bounds g)
    (fun x y => match drawn (G_Bounds g) r src sp x y with
                | Some c => G_Convert g c
                | None => G_At g x y
                end)
    (G_Convert g).

Definition draw_Draw_Src (dst : Image) (r : Rectangle) (src : Image) (sp : Point) : Image :=
  match dst with
  | IRGBA d => IRGBA (draw_RGBA d r src sp)
  | IGeneric g => IGeneric (draw_Generic g r src sp)
  end.

(** ** The store

    [draw.Image] and [image.Image] values are references: an image lives at
    a location of the store and [nil] is [None].  Two arguments that are the
    same location are the same image.  Distinct locations do not share
    pixels (module [Shared] has the store in which they may). *)
Definition loc := nat.

Definition heap := loc -> Image.

Definition upd (h : heap) (l : loc) (i : Image) : heap :=
  fun l' => if Nat.eqb l' l then i else h l'.

(** A call returns or panics. *)
Inductive result (A : Type) : Type :=
| Ok (a : A)
| Panic (msg : string).

Arguments Ok {A} a.
Arguments Panic {A} msg.

Definition bind {A B : Type} (m : result A) (k : A -> result B) : result B :=
  match m with
  | Ok a => k a
  | Panic msg => Panic msg
  end.

Notation "x <- m ;; k" := (bind m (fun x => k))
  (at level 100, m at next level, right associativity).

(** [os.Error]: [nil] or an error carrying its text. *)
Definition error := option string.

(** The method call [img.Bounds()] on an interface value: a nil receiver
    panics. *)
Definition callBounds (h : heap) (img : option loc) : result Rectangle :=
  match img with
  | Some l => Ok (Bounds (h l))
  | None => Panic "invalid memory address or nil pointer dereference"
  end.

(** The integers [lo, lo+1, ..., hi-1] a [for v := lo; v < hi; v++] loop
    visits, in order. *)
Definition span (lo hi : Z) : list Z :=
  map (fun i => (lo + Z.of_nat i)%Z) (seq 0 (Z.to_nat (hi - lo))).

(** The source buffer [srcRgba] of the loop: the destination buffer itself
    when [src] and [dst] are the same [*image.RGBA], a buffer of its own
    otherwise. *)
Inductive srcBuffer :=
| SameAsDst
| OwnBuffer (r : RGBA).

Definition readSrc (s : srcBuffer) (cur : RGBA) : RGBA :=
  match s with
  | SameAsDst => cur
  | OwnBuffer r => r
  end.

Section Pipeline.

(** Modelled from the spec: [binterpRGBA], the sampler, is defined outside
    [affine.go].  It reads the source buffer and returns the destination
    buffer with the one pixel [(x, y)] written.  It is taken to return on
    every input. *)
Variable binterpRGBA : RGBA -> Z -> Z -> RGBA -> float -> float -> RGBA.

(** The body of the inner loop. *)
Definition pixel (a : Affine) (srcb : Rectangle) (s : srcBuffer)
           (y x : Z) (cur : RGBA) : RGBA :=
  let '(sx, sy) := pt a x y in
  if inBounds srcb sx sy
  then binterpRGBA cur x y (readSrc s cur) sx sy
  else cur.

(** [for x := b.Min.X; x < b.Max.X; x++] *)
Definition row (a : Affine) (srcb : Rectangle) (s : srcBuffer)
           (b : Rectangle) (y : Z) (cur : RGBA) : RGBA :=
  fold_left (fun st x => pixel a srcb s y x st) (span (X (Min b)) (X (Max b))) cur.

(** [for y := b.Min.Y; y < b.Max.Y; y++] *)
Definition rows (a : Affine) (srcb : Rectangle) (s : srcBuffer)
           (b : Rectangle) (cur : RGBA) : RGBA :=
  fold_left (fun st y => row a srcb s b y st) (span (Y (Min b)) (Y (Max b))) cur.

(** [func (a Affine) Transform(dst draw.Image, src image.Image) os.Error] *)
Definition Transform (a : Affine) (dst src : option loc) (h : heap)
  : result (error * heap) :=
  match dst with
  | None => Ok (Some "graphics: dst is nil"%string, h)
  | Some d =>
    match src with
    | None => Ok (Some "graphics: src is nil"%string, h)
    | Some s =>
      let srcb := Bounds (h s) in
      let srcRgba :=
        match h s with
        | IRGBA r => if Nat.eqb s d then SameAsDst else OwnBuffer r
        | IGeneric _ => OwnBuffer (draw_RGBA (NewRGBA srcb) srcb (h s) (Min srcb))
        end in
      let b := Bounds (h d) in
      match h d with
      | IRGBA dstRgba =>
          Ok (None, upd h d (IRGBA (rows a srcb srcRgba b dstRgba)))
      | IGeneric _ =>
          let dstRgba := rows a srcb srcRgba b (NewRGBA b) in
          Ok (None, upd h d (draw_Draw_Src (h d) b (IRGBA dstRgba) (Min b)))
      end
    end
  end.

(** [func (a Affine) TransformCenter(dst draw.Image, src image.Image) os.Error] *)
Definition TransformCenter (a : Affine) (dst src : option loc) (h : heap)
  : result (error * heap) :=
  match dst with
  | None => Ok (Some "graphics: dst is nil"%string, h)
  | Some _ =>
    match src with
    | None => Ok (Some "graphics: src is nil"%string, h)
    | Some _ =>
      db <- callBounds h dst ;;
      sb <- callBounds h src ;;
      Transform (CenterFit a db sb) dst src h
    end
  end.

End Pipeline.

(** ** A sampler to run the pipeline with

    Nearest neighbour: the destination pixel [(x, y)] takes the color of the
    source pixel whose square contains [(sx, sy)]. *)

(** The largest integer not above a finite float ([0] for NaN and the
    infinities). *)
Definition floorZ (x : float) : Z :=
  match Prim2SF x with
  | S754_finite s m e =>
      match e with
      | Zneg p => (cond_Zopp s (Zpos m) / 2 ^ Zpos p)%Z
      | _ => (cond_Zopp s (Zpos m) * 2 ^ e)%Z
      end
  | _ => 0%Z
  end.

Definition setRGBA (d : RGBA) (x y : Z) (c : Color) : RGBA :=
  mkRGBA (RGBA_Rect d)
    (fun x' y' => if (x' =? x)%Z && (y' =? y)%Z then c else RGBA_Pix d x' y').

Definition nearestRGBA (dst : RGBA) (x y : Z) (src : RGBA) (sx sy : float) : RGBA :=
  setRGBA dst x y (At (IRGBA src) (floorZ sx) (floorZ sy)).

(** ** The words of the specification *)

(** The centroid of a rectangle: [Min + size/2] on each axis, in float64. *)
Definition centroid (r : Rectangle) : float * float :=
  (float64_of_int (X (Min r)) + float64_of_int (Dx r) / 2,
   float64_of_int (Y (Min r)) + float64_of_int (Dy r) / 2).

(** [diag(1/x, 1/y, 1)], the matrix [Scale] composes. *)
Definition scaling (x y : float) : Affine :=
  mkAffine (1 / x) 0 0
           0 (1 / y) 0
           0 0 1.

(** The inverse shear matrix of slopes [x], [y], with divisor [d]. *)
Definition shearing (x y d : float) : Affine :=
  mkAffine (1 / d) ((- x) / d) 0
           ((- y) / d) (1 / d) 0
           0 0 1.

(** The bottom row of a matrix is exactly [(0, 0, 1)]. *)
Definition bottom_row_affine (a : Affine) : Prop :=
  el6 a = 0 /\ el7 a = 0 /\ el8 a = 1.

(** The two upper rows of a matrix hold finite numbers. *)
Definition upper_rows_finite (a : Affine) : Prop :=
  finite (el0 a) = true /\ finite (el1 a) = true /\ finite (el2 a) = true /\
  finite (el3 a) = true /\ finite (el4 a) = true /\ finite (el5 a) = true.

(** ** A store to run examples on

    Location 0 holds a 4x4 [*image.RGBA] filled with a sentinel color,
    location 1 a 2x2 [*image.RGBA] of four distinct colors, location 2 a
    4x4 image of another type filled with the sentinel, whose color model
    keeps every color as it is; every other location holds a zeroed 2x2
    [*image.RGBA]. *)
Definition sentinel : Color := mkColor 1 2 3 4.

Definition red : Color := mkColor 255 0 0 255.
Definition green : Color := mkColor 0 255 0 255.
Definition blue : Color := mkColor 0 0 255 255.
Definition white : Color := mkColor 255 255 255 255.

Definition quad : RGBA :=
  mkRGBA (Rect 0 0 2 2)
    (fun x y =>
       match x, y with
       | 0%Z, 0%Z => red
       | 1%Z, 0%Z => green
       | 0%Z, 1%Z => blue
       | _, _ => white
       end).

Definition demo : heap :=
  fun l =>
    match l with
    | O => IRGBA (mkRGBA (Rect 0 0 4 4) (fun _ _ => sentinel))
    | S O => IRGBA quad
    | S (S O) => IGeneric (mkGeneric (Rect 0 0 4 4) (fun _ _ => sentinel) (fun c => c))
    | _ => IRGBA (NewRGBA (Rect 0 0 2 2))
    end.

(** ** Classes of floats *)

(** A float is [+0] or [-0]. *)
Definition zeroish (x : float) : Prop := exists s, Prim2SF x = S754_zero s.

(** [math.Sincos] at the angle 0, the one angle the examples rotate by. *)
Definition sincos_of_zero (angle : float) : float * float := (0, 1).

(** A rectangle whose first coordinates float64 rounds: [2^53 + 1] becomes
    [2^53] and [2^53 + 3] becomes [2^53 + 4]. *)
Definition far_rect : Rectangle :=
  Rect 9007199254740993 0 9007199254740995 1.

(** ** Shapes of rectangles, coordinates and matrices *)

(** A rectangle with no pixel. *)
Definition empty_rect (r : Rectangle) : Prop :=
  (X (Max r) <= X (Min r))%Z \/ (Y (Max r) <= Y (Min r))%Z.

(** The coordinates of pixels whose center [n + 0.5] float64 holds exactly. *)
Definition pixel_coord (z : Z) : Prop := (- 2 ^ 52 <= z < 2 ^ 52)%Z.

(** The buffer the loop reads a source image from: the image itself when it
    is an [*image.RGBA], a converted copy otherwise. *)
Definition sourceRGBA (i : Image) : RGBA :=
  match i with
  | IRGBA r => r
  | IGeneric _ => draw_RGBA (NewRGBA (Bounds i)) (Bounds i) i (Min (Bounds i))
  end.

(** A finite float that is not a zero. *)
Definition number (x : float) : Prop :=
  exists s m e, Prim2SF x = S754_finite s m e.

(** [x] is the finite float [y], or both are zeroes: what Go's [==] cannot
    tell apart. *)
Definition same_number (x y : float) : Prop :=
  finite y = true /\ (x = y \/ (zeroish x /\ zeroish y)).

(** Go's [==] on two [Affine] arrays: [==] on every entry. *)
Definition affine_eqb (a b : Affine) : bool :=
  (el0 a =? el0 b) && (el1 a =? el1 b) && (el2 a =? el2 b) &&
  (el3 a =? el3 b) && (el4 a =? el4 b) && (el5 a =? el5 b) &&
  (el6 a =? el6 b) && (el7 a =? el7 b) && (el8 a =? el8 b).

(** The nine entries are finite. *)
Definition all_finite (a : Affine) : Prop :=
  upper_rows_finite a /\
  finite (el6 a) = true /\ finite (el7 a) = true /\ finite (el8 a) = true.

(** The identity up to the sign of its zeroes. *)
Definition neutral (u : Affine) : Prop :=
  el0 u = 1 /\ zeroish (el1 u) /\ zeroish (el2 u) /\
  zeroish (el3 u) /\ el4 u = 1 /\ zeroish (el5 u) /\
  zeroish (el6 u) /\ zeroish (el7 u) /\ el8 u = 1.

(** The matrix of a translation by [(tx, ty)], up to the sign of a zero. *)
Definition translation (u : Affine) (tx ty : float) : Prop :=
  el0 u = 1 /\ el1 u = 0 /\ same_number (el2 u) tx /\
  el3 u = 0 /\ el4 u = 1 /\ same_number (el5 u) ty /\
  el6 u = 0 /\ el7 u = 0 /\ el8 u = 1.

(** A shift record with nothing lost. *)
Definition exact_rec (m : Z) : shr_record := Build_shr_record m false false.

(** The example store with a destination of no pixel at location 0. *)
Definition hollow : heap :=
  upd demo 0%nat (IRGBA (mkRGBA (Rect 0 0 0 4) (fun _ _ => sentinel))).

(** A matrix of finite entries. *)
Definition skew : Affine :=
  mkAffine 2 0.5 3
           (-1) 4 5
           0 0 1.

(** ** Images that share their pixels

    An [*image.RGBA] points to its pixels: [img.SubImage(r)] is another
    [*image.RGBA] value, with a rectangle of its own, on the pixels of [img],
    and what is written through one of them is read through the other.  The
    store of this module keeps the pixel buffers apart from the values that
    point to them; a buffer is a plane of colors in the coordinates of the
    image, which [SubImage] keeps.  An image of another type is taken to hold
    pixels of its own, and the sampler to read its source before it writes
    the pixel. *)
Module Shared.

Definition buf := nat.

(** An [*image.RGBA] value: the buffer [Pix] points into, and [Rect]. *)
Record View := mkView { View_Pix : buf; View_Rect : Rectangle }.

Inductive Value :=
| VRGBA (v : View)
| VGeneric (g : Generic).

Record Store := mkStore {
  image_at : loc -> Value;
  pixels : buf -> Z -> Z -> Color
}.

(** The buffer a value shows, in a store. *)
Definition look (st : Store) (v : View) : RGBA :=
  mkRGBA (View_Rect v) (pixels st (View_Pix v)).

(** The image at a location, in a store. *)
Definition see (st : Store) (l : loc) : Image :=
  match image_at st l with
  | VRGBA v => IRGBA (look st v)
  | VGeneric g => IGeneric g
  end.

(** Two [*image.RGBA] values on the same pixels. *)
Definition shares (st : Store) (l l' : loc) : bool :=
  match image_at st l, image_at st l' with
  | VRGBA v, VRGBA v' => Nat.eqb (View_Pix v) (View_Pix v')
  | _, _ => false
  end.

(** The method call [img.Bounds()] on an interface value. *)
Definition callBounds (st : Store) (img : option loc) : result Rectangle :=
  match img with
  | Some l => Ok (Bounds (see st l))
  | None => Panic "invalid memory address or nil pointer dereference"
  end.

(** What [srcRgba] shows when the loop reads it, [cur] being what [dstRgba]
    shows at that time (an [*image.RGBA] destination [dv] at location [d]):
    [cur] itself when [src] is [dst]; the pixels of [cur] under the
    rectangle of [src] when [src] is another value on the same pixels; the
    source as it was before the call otherwise, or its converted copy. *)
Definition srcRgba (st : Store) (s d : loc) (dv : View) (cur : RGBA) : RGBA :=
  match image_at st s with
  | VRGBA sv =>
      if Nat.eqb s d then cur
      else if Nat.eqb (View_Pix sv) (View_Pix dv)
           then mkRGBA (View_Rect sv) (RGBA_Pix cur)
           else look st sv
  | VGeneric _ => sourceRGBA (see st s)
  end.

(** The store once the loop has left [r] in the [*image.RGBA] [v] at
    location [d]. *)
Definition written (st : Store) (d : loc) (v : View) (r : RGBA) : Store :=
  mkStore
    (fun l => if Nat.eqb l d then VRGBA (mkView (View_Pix v) (RGBA_Rect r))
              else image_at st l)
    (fun k => if Nat.eqb k (View_Pix v) then RGBA_Pix r else pixels st k).

(** The store once [draw.Draw] has set the image [g] at location [d]. *)
Definition drawn_back (st : Store) (d : loc) (g : Generic) : Store :=
  mkStore (fun l => if Nat.eqb l d then VGeneric g else image_at st l) (pixels st).

(** From [st] to [st'] no [*image.RGBA] value changes its buffer or its
    rectangle, and no pixel changes but pixels of the buffer of [v] inside
    its rectangle. *)
Definition changes_only (v : View) (st st' : Store) : Prop :=
  (forall l w, image_at st l = VRGBA w -> image_at st' l = VRGBA w) /\
  (forall k x y,
     k <> View_Pix v \/ inRect (View_Rect v) x y = false ->
     pixels st' k x y = pixels st k x y).

(** The image at [l] has in [st'] the bounds and the colors it has in
    [st]. *)
Definition same_image (st st' : Store) (l : loc) : Prop :=
  Bounds (see st' l) = Bounds (see st l) /\
  forall x y, At (see st' l) x y = At (see st l) x y.

Section Pipeline.

Variable binterpRGBA : RGBA -> Z -> Z -> RGBA -> float -> float -> RGBA.

(** The body of the inner loop; [read] is what [srcRgba] shows. *)
Definition pixel (a : Affine) (srcb : Rectangle) (read : RGBA -> RGBA)
           (y x : Z) (cur : RGBA) : RGBA :=
  let '(sx, sy) := pt a x y in
  if inBounds srcb sx sy
  then binterpRGBA cur x y (read cur) sx sy
  else cur.

Definition row (a : Affine) (srcb : Rectangle) (read : RGBA -> RGBA)
           (b : Rectangle) (y : Z) (cur : RGBA) : RGBA :=
  fold_left (fun st x => pixel a srcb read y x st) (span (X (Min b)) (X (Max b))) cur.

Definition rows (a : Affine) (srcb : Rectangle) (read : RGBA -> RGBA)
           (b : Rectangle) (cur : RGBA) : RGBA :=
  fold_left (fun st y => row a srcb read b y st) (span (Y (Min b)) (Y (Max b))) cur.

(** [func (a Affine) Transform(dst draw.Image, src image.Image) os.Error] *)
Definition Transform (a : Affine) (dst src : option loc) (st : Store)
  : result (error * Store) :=
  match dst with
  | None => Ok (Some "graphics: dst is nil"%string, st)
  | Some d =>
    match src with
    | None => Ok (Some "graphics: src is nil"%string, st)
    | Some s =>
      let srcb := Bounds (see st s) in
      let b := Bounds (see st d) in
      match image_at st d with
      | VRGBA dv =>
          let dstRgba := rows a srcb (srcRgba st s d dv) b (look st dv) in
          Ok (None, written st d dv dstRgba)
      | VGeneric g =>
          let dstRgba := rows a srcb (fun _ => sourceRGBA (see st s)) b (NewRGBA b) in
          Ok (None, drawn_back st d (draw_Generic g b (IRGBA dstRgba) (Min b)))
      end
    end
  end.

(** [func (a Affine) TransformCenter(dst draw.Image, src image.Image) os.Error] *)
Definition TransformCenter (a : Affine) (dst src : option loc) (st : Store)
  : result (error * Store) :=
  match dst with
  | None => Ok (Some "graphics: dst is nil"%string, st)
  | Some _ =>
    match src with
    | None => Ok (Some "graphics: src is nil"%string, st)
    | Some _ =>
      db <- callBounds st dst ;;
      sb <- callBounds st src ;;
      Transform (CenterFit a db sb) dst src st
    end
  end.

End Pipeline.

(** A store without sharing: the image at location [l] points to the buffer
    [l]. *)
Definition unshared (h : heap) : Store :=
  mkStore
    (fun l => match h l with
              | IRGBA r => VRGBA (mkView l (RGBA_Rect r))
              | IGeneric g => VGeneric g
              end)
    (fun k => match h k with
              | IRGBA r => RGBA_Pix r
              | IGeneric _ => fun _ _ => transparent
              end).

(** The images of [demo], and at location 4 the middle of the image at
    location 0, as [SubImage] gives it. *)
Definition demo : Store :=
  mkStore
    (fun l => match l with
              | 4%nat => VRGBA (mkView 0%nat (Rect 1 1 3 3))
              | _ => image_at (unshared demo) l
              end)
    (pixels (unshared demo)).

(** A strip of three pixels, red, green and blue, at location 0, and at
    location 1 its [SubImage] on its own bounds. *)
Definition strip : Store :=
  mkStore
    (fun _ => VRGBA (mkView 0%nat (Rect 0 0 3 1)))
    (fun _ x _ => match x with
                  | 0%Z => red
                  | 1%Z => green
                  | _ => blue
                  end).

End Shared.

(** * Properties of the pipeline *)

Lemma upd_same (h : heap) (l : loc) (i : Image) : upd h l i l = i.
Proof. unfold upd. now rewrite Nat.eqb_refl. Qed.

Lemma upd_other (h : heap) (l l' : loc) (i : Image) : l' <> l -> upd h l i l' = h l'.
Proof.
  intros Hne. unfold upd.
  destruct (Nat.eqb l' l) eqn:E; [apply Nat.eqb_eq in E; contradiction | reflexivity].
Qed.

(** The loop variable takes exactly the values of the half-open range. *)
Lemma in_span (lo hi v : Z) : In v (span lo hi) <-> (lo <= v < hi)%Z.
Proof.
  unfold span. rewrite in_map_iff. split.
  - intros [i [<- Hi]]. apply in_seq in Hi. lia.
  - intros Hv. exists (Z.to_nat (v - lo)). split; [lia | apply in_seq; lia].
Qed.

(** A property that every iteration of a loop keeps holds of the loop: by
    induction on the values the loop variable takes, for every state the
    loop starts from. *)
Ltac by_loop_induction step :=
  match goal with
  | |- context [fold_left _ ?l ?cur] =>
      generalize l;
      let vs := fresh "vs" in
      let IH := fresh "IH" in
      intros vs; revert cur;
      induction vs as [|? vs IH]; intros cur; simpl;
      [reflexivity | rewrite IH; apply step]
  end.

Section SamplerContract.

Variable binterpRGBA : RGBA -> Z -> Z -> RGBA -> float -> float -> RGBA.

(** Modelled from the spec: the sampler "must only read srcBuffer and write
    exactly the single pixel (dx,dy) of destBuffer". *)
Hypothesis binterp_Rect : forall dst x y src sx sy,
  RGBA_Rect (binterpRGBA dst x y src sx sy) = RGBA_Rect dst.
Hypothesis binterp_frame : forall dst x y src sx sy x' y',
  (x', y') <> (x, y) ->
  RGBA_Pix (binterpRGBA dst x y src sx sy) x' y' = RGBA_Pix dst x' y'.

Section Loop.

Variables (a : Affine) (srcb : Rectangle) (s : srcBuffer) (b : Rectangle).

Lemma pixel_Rect (y x : Z) (cur : RGBA) :
  RGBA_Rect (pixel binterpRGBA a srcb s y x cur) = RGBA_Rect cur.
Proof.
  unfold pixel. destruct (pt a x y) as [sx sy].
  destruct (inBounds srcb sx sy); [apply binterp_Rect | reflexivity].
Qed.

Lemma row_Rect (y : Z) (cur : RGBA) :
  RGBA_Rect (row binterpRGBA a srcb s b y cur) = RGBA_Rect cur.
Proof. unfold row. by_loop_induction pixel_Rect. Qed.

Lemma rows_Rect (cur : RGBA) :
  RGBA_Rect (rows binterpRGBA a srcb s b cur) = RGBA_Rect cur.
Proof. unfold rows. by_loop_induction row_Rect. Qed.

(** The pixel [(x, y)], whose transformed point is out of the source
    bounds, survives every iteration. *)
Variables (x y : Z).
Hypothesis outside : inBounds srcb (fst (pt a x y)) (snd (pt a x y)) = false.

Lemma pixel_keeps (y' x' : Z) (cur : RGBA) :
  RGBA_Pix (pixel binterpRGBA a srcb s y' x' cur) x y = RGBA_Pix cur x y.
Proof.
  unfold pixel. destruct (pt a x' y') as [sx sy] eqn:Ept.
  destruct (inBounds srcb sx sy) eqn:Ein; [|reflexivity].
  apply binterp_frame. intros Heq. injection Heq as -> ->.
  rewrite Ept in outside. simpl in outside. congruence.
Qed.

Lemma row_keeps (y' : Z) (cur : RGBA) :
  RGBA_Pix (row binterpRGBA a srcb s b y' cur) x y = RGBA_Pix cur x y.
Proof. unfold row. by_loop_induction pixel_keeps. Qed.

Lemma rows_keeps (cur : RGBA) :
  RGBA_Pix (rows binterpRGBA a srcb s b cur) x y = RGBA_Pix cur x y.
Proof. unfold rows. by_loop_induction row_keeps. Qed.

End Loop.

(** X21: the [*image.RGBA] path keeps what the loop does not write: when
    the destination is an [*image.RGBA], a pixel of its bounds whose
    transformed point fails the source bounds check holds after [Transform]
    the color it held before. *)
Theorem Transform_keeps_pixel_out_of_source
  (a : Affine) (d s : loc) (h : heap) (r : RGBA) (x y : Z) :
  h d = IRGBA r ->
  inRect (Bounds (h d)) x y = true ->
  inBounds (Bounds (h s)) (fst (pt a x y)) (snd (pt a x y)) = false ->
  exists h',
    Transform binterpRGBA a (Some d) (Some s) h = Ok (None, h') /\
    At (h' d) x y = At (h d) x y.
Proof.
  intros Hd _ Hout. unfold Transform. rewrite Hd.
  eexists; split; [reflexivity|].
  rewrite upd_same. simpl.
  rewrite rows_Rect, rows_keeps by exact Hout. reflexivity.
Qed.

(** X3: what the same pixel becomes when the destination is not an
    [*image.RGBA]: the zero color of the scratch buffer, converted by the
    destination's color model. *)
Theorem Transform_generic_clears_pixel_out_of_source
  (a : Affine) (d s : loc) (h : heap) (g : Generic) (x y : Z) :
  h d = IGeneric g ->
  inRect (Bounds (h d)) x y = true ->
  inBounds (Bounds (h s)) (fst (pt a x y)) (snd (pt a x y)) = false ->
  exists h',
    Transform binterpRGBA a (Some d) (Some s) h = Ok (None, h') /\
    At (h' d) x y = G_Convert g transparent.
Proof.
  intros Hd Hin Hout. unfold Transform. rewrite Hd in *. simpl in Hin.
  eexists; split; [reflexivity|].
  rewrite upd_same. simpl. unfold drawn. simpl.
  rewrite rows_Rect. simpl.
  replace (x + (X (Min (G_Bounds g)) - X (Min (G_Bounds g))))%Z with x by lia.
  replace (y + (Y (Min (G_Bounds g)) - Y (Min (G_Bounds g))))%Z with y by lia.
  rewrite Hin. simpl.
  rewrite rows_keeps by exact Hout. reflexivity.
Qed.

End SamplerContract.

Section Calls.

Variable binterpRGBA : RGBA -> Z -> Z -> RGBA -> float -> float -> RGBA.

(** C3: [Transform] returns an error exactly when [dst] or [src] is nil;
    it then leaves the store as it was; otherwise it returns nil. *)
Theorem Transform_error_iff_nil (a : Affine) (dst src : option loc) (h : heap) :
  exists (e : error) (h' : heap),
    Transform binterpRGBA a dst src h = Ok (e, h') /\
    (e <> None <-> (dst = None \/ src = None)) /\
    (e <> None -> h' = h) /\
    (dst <> None -> src <> None -> e = None).
Proof.
  unfold Transform.
  destruct dst as [d|]; [destruct src as [s|]|].
  - destruct (h d); eexists; eexists; (split; [reflexivity|]);
      (repeat split; try congruence; intros [?|?]; congruence).
  - eexists; eexists; split; [reflexivity|].
    repeat split; try congruence; auto.
  - eexists; eexists; split; [reflexivity|].
    repeat split; try congruence; auto.
Qed.

(** C9: on images that are not nil, [TransformCenter] is [Transform] of the
    matrix [CenterFit] builds from the two bounds: same returned error,
    same store. *)
Theorem TransformCenter_is_CenterFit_then_Transform
  (a : Affine) (d s : loc) (h : heap) :
  TransformCenter binterpRGBA a (Some d) (Some s) h =
  Transform binterpRGBA (CenterFit a (Bounds (h d)) (Bounds (h s))) (Some d) (Some s) h.
Proof. reflexivity. Qed.

(** C10: with a nil [dst] or a nil [src], [TransformCenter] returns an
    error; it does not panic on [Bounds] and leaves the store as it was. *)
Theorem TransformCenter_nil_is_error (a : Affine) (dst src : option loc) (h : heap) :
  dst = None \/ src = None ->
  exists msg : string, TransformCenter binterpRGBA a dst src h = Ok (Some msg, h).
Proof.
  intros [-> | ->].
  - eexists. reflexivity.
  - destruct dst; eexists; reflexivity.
Qed.

(** Without the two guards, the call of [Bounds] on a nil image panics. *)
Lemma unguarded_Bounds_panics (a : Affine) (src : option loc) (h : heap) :
  exists msg : string,
    (db <- callBounds h None ;;
     sb <- callBounds h src ;;
     Transform binterpRGBA (CenterFit a db sb) None src h) = Panic msg.
Proof. eexists. reflexivity. Qed.

End Calls.

(** The nearest-neighbour sampler meets the sampler's contract. *)
Lemma nearest_Rect (dst : RGBA) (x y : Z) (src : RGBA) (sx sy : float) :
  RGBA_Rect (nearestRGBA dst x y src sx sy) = RGBA_Rect dst.
Proof. reflexivity. Qed.

Lemma nearest_frame (dst : RGBA) (x y : Z) (src : RGBA) (sx sy : float) (x' y' : Z) :
  (x', y') <> (x, y) ->
  RGBA_Pix (nearestRGBA dst x y src sx sy) x' y' = RGBA_Pix dst x' y'.
Proof.
  intros Hne. unfold nearestRGBA, setRGBA. simpl.
  destruct (Z.eqb_spec x' x) as [->|]; [|reflexivity].
  destruct (Z.eqb_spec y' y) as [->|]; [|reflexivity].
  contradiction Hne; reflexivity.
Qed.

(** The example of the specification: the identity copies a 2x2 source into
    a zeroed 2x2 destination. *)
Example identity_copies_quad :
  exists h',
    Transform nearestRGBA I (Some 3%nat) (Some 1%nat) demo = Ok (None, h') /\
    (At (h' 3%nat) 0 0, At (h' 3%nat) 1 0, At (h' 3%nat) 0 1, At (h' 3%nat) 1 1)
    = (red, green, blue, white).
Proof. eexists; split; [reflexivity | vm_compute; reflexivity]. Qed.

Lemma Transform_keeps_pixel_out_of_source_witness :
  exists h',
    Transform nearestRGBA I (Some 0%nat) (Some 1%nat) demo = Ok (None, h') /\
    At (h' 0%nat) 3 3 = At (demo 0%nat) 3 3.
Proof.
  apply (Transform_keeps_pixel_out_of_source nearestRGBA nearest_Rect nearest_frame
           I 0%nat 1%nat demo (mkRGBA (Rect 0 0 4 4) (fun _ _ => sentinel)) 3 3).
  - reflexivity.
  - reflexivity.
  - vm_compute; reflexivity.
Defined.

(** C1: the defect, on an input.  The destination at location 2 is a 4x4
    image that is not an [*image.RGBA], filled with a sentinel; the source is
    the 2x2 [quad]; the matrix is the identity.  The pixel (3,3) is in the
    destination bounds and its point (3.5,3.5) fails the bounds check, so the
    loop does not write it; yet after the call it holds the zero color of
    the scratch buffer, not the sentinel.  On an [*image.RGBA] destination
    the same pixel is kept. *)
Lemma Transform_generic_loses_sentinel :
  inRect (Bounds (demo 2%nat)) 3 3 = true /\
  inBounds (Bounds (demo 1%nat)) (fst (pt I 3 3)) (snd (pt I 3 3)) = false /\
  exists h',
    Transform nearestRGBA I (Some 2%nat) (Some 1%nat) demo = Ok (None, h') /\
    At (demo 2%nat) 3 3 = sentinel /\
    At (h' 2%nat) 3 3 = transparent /\
    At (h' 2%nat) 3 3 <> At (demo 2%nat) 3 3.
Proof.
  split; [reflexivity|]. split; [vm_compute; reflexivity|].
  eexists; split; [reflexivity|].
  split; [reflexivity|]. split; [vm_compute; reflexivity|].
  vm_compute. discriminate.
Qed.

Lemma Transform_generic_clears_pixel_out_of_source_witness :
  exists h',
    Transform nearestRGBA I (Some 2%nat) (Some 1%nat) demo = Ok (None, h') /\
    At (h' 2%nat) 3 3 = transparent.
Proof.
  apply (Transform_generic_clears_pixel_out_of_source nearestRGBA nearest_Rect nearest_frame
           I 2%nat 1%nat demo
           (mkGeneric (Rect 0 0 4 4) (fun _ _ => sentinel) (fun c => c)) 3 3).
  - reflexivity.
  - reflexivity.
  - vm_compute; reflexivity.
Defined.

Lemma TransformCenter_nil_is_error_witness :
  exists msg : string,
    TransformCenter nearestRGBA I None (Some 1%nat) demo = Ok (Some msg, demo).
Proof.
  apply (TransformCenter_nil_is_error nearestRGBA I None (Some 1%nat) demo).
  left; reflexivity.
Defined.

(** * Properties of the matrices *)

(** C4: [pt] applies the matrix to the center [(x0+0.5, y0+0.5)] of the
    pixel, in float64 arithmetic. *)
Theorem pt_is_matrix_at_pixel_center (a : Affine) (x0 y0 : Z) :
  pt a x0 y0 =
  ((float64_of_int x0 + 0.5) * el0 a + (float64_of_int y0 + 0.5) * el1 a + el2 a,
   (float64_of_int x0 + 0.5) * el3 a + (float64_of_int y0 + 0.5) * el4 a + el5 a).
Proof. reflexivity. Qed.

(** The pixel (3,4) is sampled at its center. *)
Example pt_identity : pt I 3 4 = (3.5, 4.5).
Proof. vm_compute; reflexivity. Qed.

(** Doubling the size halves the coordinates on the way back to the source. *)
Example pt_Scale : pt (Scale I 2 2) 3 3 = (1.75, 1.75).
Proof. vm_compute; reflexivity. Qed.

(** C6: [CenterFit] is [I.Translate(-sx, -sy).Mul(a).Translate(dx, dy)] with
    [(dx, dy)] the centroid of the destination rectangle and [(sx, sy)] the
    centroid of the source rectangle. *)
Theorem CenterFit_is_centroid_translations (a : Affine) (dst src : Rectangle) :
  CenterFit a dst src =
  Translate (Mul (Translate I (- fst (centroid src)) (- snd (centroid src))) a)
            (fst (centroid dst)) (snd (centroid dst)).
Proof. reflexivity. Qed.

(** The centroids of the rectangles (1,2)-(4,8) and (0,0)-(2,2). *)
Example centroid_values :
  centroid (Rect 1 2 4 8) = (2.5, 5) /\ centroid (Rect 0 0 2 2) = (1, 1).
Proof. split; vm_compute; reflexivity. Qed.

(** [CenterFit] sends the center (2,2) of a 4x4 destination, the corner of
    the pixel (2,2) whose own center is (2.5,2.5), to the center (1,1) of a
    2x2 source. *)
Example pt_CenterFit :
  pt (CenterFit I (Rect 0 0 4 4) (Rect 0 0 2 2)) 2 2 = (1.5, 1.5).
Proof. vm_compute; reflexivity. Qed.

(** * binary64

    What the proofs below need of IEEE 754 arithmetic, from the specification
    of the primitive floats in [SpecFloat] and [FloatAxioms]. *)

Module Binary64.

(** ** Zeroes, numbers, infinities and NaN *)

Lemma Prim2SF_0 : Prim2SF 0 = S754_zero false.
Proof. reflexivity. Qed.

Lemma Prim2SF_1 : Prim2SF 1 = S754_finite false 4503599627370496 (-52).
Proof. vm_compute; reflexivity. Qed.

Lemma Prim2SF_2 : Prim2SF 2 = S754_finite false 4503599627370496 (-51).
Proof. vm_compute; reflexivity. Qed.

Lemma Prim2SF_infinity : Prim2SF infinity = S754_infinity false.
Proof. reflexivity. Qed.

Lemma zeroish_0 : zeroish 0.
Proof. exists false. reflexivity. Qed.

Lemma finite_0 : finite 0 = true.
Proof. reflexivity. Qed.

Lemma finite_1 : finite 1 = true.
Proof. vm_compute; reflexivity. Qed.

Create HintDb binary64.

#[export] Hint Resolve zeroish_0 finite_0 finite_1 : binary64.

Lemma finite_opp (x : float) : finite (- x) = finite x.
Proof. unfold finite. rewrite opp_spec. destruct (Prim2SF x); reflexivity. Qed.

(** [0 * f] is a zero when [f] is a number. *)
Lemma mul_zeroish_finite (z f : float) :
  zeroish z -> finite f = true -> zeroish (z * f).
Proof.
  intros [s Hz] Hf. unfold zeroish, finite in *.
  rewrite mul_spec, Hz. unfold SF64mul, SFmul.
  destruct (Prim2SF f); try discriminate; eauto.
Qed.

Lemma add_zeroish (u v : float) : zeroish u -> zeroish v -> zeroish (u + v).
Proof.
  intros [s Hu] [t Hv]. unfold zeroish.
  rewrite add_spec, Hu, Hv. unfold SF64add, SFadd.
  destruct s, t; eauto.
Qed.

(** Round to nearest: a zero plus [+0] is [+0]. *)
Lemma add_zeroish_0 (u : float) : zeroish u -> u + 0 = 0.
Proof.
  intros [s Hu]. apply Prim2SF_inj.
  rewrite add_spec, Hu, Prim2SF_0. destruct s; reflexivity.
Qed.

Lemma add_zeroish_1 (u : float) : zeroish u -> u + 1 = 1.
Proof.
  intros [s Hu]. apply Prim2SF_inj.
  rewrite add_spec, Hu, Prim2SF_1. reflexivity.
Qed.

(** Anything times an infinity is an infinity or NaN. *)
Lemma mul_infinity_not_finite (x i : float) (s : bool) :
  Prim2SF i = S754_infinity s -> finite (x * i) = false.
Proof.
  intros Hi. unfold finite. rewrite mul_spec, Hi. unfold SF64mul, SFmul.
  destruct (Prim2SF x); reflexivity.
Qed.

Lemma add_not_finite_l (u v : float) : finite u = false -> finite (u + v) = false.
Proof.
  unfold finite. rewrite add_spec. unfold SF64add, SFadd.
  destruct (Prim2SF u) as [| [|] | |]; try discriminate; intros _;
    destruct (Prim2SF v) as [| [|] | |]; reflexivity.
Qed.

Lemma add_not_finite_r (u v : float) : finite v = false -> finite (u + v) = false.
Proof.
  unfold finite. rewrite add_spec. unfold SF64add, SFadd.
  destruct (Prim2SF v) as [| [|] | |]; try discriminate; intros _;
    destruct (Prim2SF u) as [| [|] | |]; reflexivity.
Qed.

Lemma float_neq (x y : float) : Prim2SF x <> Prim2SF y -> x <> y.
Proof. intros H ->. now apply H. Qed.

Lemma zeroish_cases (x : float) : zeroish x -> x = 0 \/ x = - 0.
Proof.
  intros [s Hs]. rewrite <- (SF2Prim_Prim2SF x), Hs.
  destruct s; [right | left]; reflexivity.
Qed.

Lemma reciprocal_of_zero (x : float) :
  zeroish x -> 1 / x = infinity \/ 1 / x = neg_infinity.
Proof. intros Hx. destruct (zeroish_cases x Hx) as [-> | ->]; [left | right]; reflexivity. Qed.

(** The rational a float stands for, on three values. *)
Example real_of_float_values :
  real_of_float 0.5 = Some ((2 ^ 1073)%Z # denom1074) /\
  real_of_float 3 = Some ((3 * 2 ^ 1074)%Z # denom1074) /\
  real_of_float (-1.25) = Some ((- (5 * 2 ^ 1072))%Z # denom1074) /\
  real_of_float infinity = None /\ real_of_float nan = None.
Proof. repeat split; vm_compute; reflexivity. Qed.

#[local] Close Scope float_scope.

(** ** Digits and powers of two *)

Lemma pow2_lt_mono (a b : Z) : 0 <= a -> a < b -> 2 ^ a < 2 ^ b.
Proof. intros. apply Z.pow_lt_mono_r; lia. Qed.

Lemma pow2_le_mono (a b : Z) : 0 <= a -> a <= b -> 2 ^ a <= 2 ^ b.
Proof. intros. apply Z.pow_le_mono_r; lia. Qed.

Lemma pow2_pos (a : Z) : 0 <= a -> 0 < 2 ^ a.
Proof. intros. apply Z.pow_pos_nonneg; lia. Qed.

(** [digits2_pos m] is the number of binary digits of [m]. *)
Lemma digits2_pos_bounds (m : positive) :
  2 ^ (Zpos (digits2_pos m) - 1) <= Zpos m < 2 ^ Zpos (digits2_pos m).
Proof.
  induction m as [m IH|m IH|]; simpl digits2_pos.
  - rewrite Pos2Z.inj_succ.
    replace (Z.succ (Z.pos (digits2_pos m)) - 1) with (Z.succ (Z.pos (digits2_pos m) - 1)) by lia.
    rewrite !Z.pow_succ_r by lia. lia.
  - rewrite Pos2Z.inj_succ.
    replace (Z.succ (Z.pos (digits2_pos m)) - 1) with (Z.succ (Z.pos (digits2_pos m) - 1)) by lia.
    rewrite !Z.pow_succ_r by lia. lia.
  - simpl. lia.
Qed.

Lemma digits2_pos_shift (m k : positive) :
  digits2_pos (Pos.iter xO m k) = (digits2_pos m + k)%positive.
Proof.
  induction k as [|k IH] using Pos.peano_ind.
  - simpl. lia.
  - rewrite Pos.iter_succ. simpl. rewrite IH. lia.
Qed.

Lemma Zpos_shift (m k : positive) :
  Zpos (Pos.iter xO m k) = Zpos m * 2 ^ Zpos k.
Proof.
  induction k as [|k IH] using Pos.peano_ind.
  - simpl. lia.
  - rewrite Pos.iter_succ, Pos2Z.inj_succ, Z.pow_succ_r by lia.
    rewrite Pos2Z.inj_xO, IH. ring.
Qed.

Lemma Zdigits2_nonneg (m : Z) : 0 <= Zdigits2 m.
Proof. destruct m; simpl; lia. Qed.

Lemma Zdigits2_le (a k : Z) : 0 <= a < 2 ^ k -> 0 <= k -> Zdigits2 a <= k.
Proof.
  intros [Ha Hk] Hk0. destruct a as [|p|p]; simpl; try lia.
  pose proof (digits2_pos_bounds p) as [Hlo _].
  destruct (Z.le_gt_cases (Zpos (digits2_pos p)) k) as [|Hgt]; [assumption|exfalso].
  assert (2 ^ k <= 2 ^ (Zpos (digits2_pos p) - 1)) by (apply pow2_le_mono; lia).
  lia.
Qed.

Lemma Zdigits2_lt_pow (a : Z) : 0 <= a -> a < 2 ^ Zdigits2 a.
Proof.
  intros Ha. destruct a as [|p|p]; simpl Zdigits2.
  - reflexivity.
  - apply digits2_pos_bounds.
  - lia.
Qed.

Lemma Zdigits2_succ (m : Z) : 0 <= m -> Zdigits2 (m + 1) <= Zdigits2 m + 1.
Proof.
  intros Hm. pose proof (Zdigits2_nonneg m). pose proof (Zdigits2_lt_pow m Hm).
  apply Zdigits2_le; [|lia].
  replace (Zdigits2 m + 1) with (Z.succ (Zdigits2 m)) by lia.
  rewrite Z.pow_succ_r by lia. lia.
Qed.

(** ** Valid floats and their order *)

Lemma fexp_eq (z : Z) : fexp prec emax z = Z.max (z - 53) (-1074).
Proof. reflexivity. Qed.

(** Validity of a finite float, unfolded: the exponent range and the
    canonical mantissa. *)
Lemma valid_finite (s : bool) (m : positive) (e : Z) :
  valid_binary (S754_finite s m e) = true ->
  -1074 <= e <= 971 /\ Zpos (digits2_pos m) <= 53 /\ (-1074 < e -> Zpos (digits2_pos m) = 53).
Proof.
  unfold valid_binary, SpecFloat.valid_binary, bounded, canonical_mantissa, fexp, SpecFloat.emin.
  change prec with 53. change emax with 1024.
  intros H. apply andb_prop in H as [H1 H2].
  apply Z.eqb_eq in H1. apply Z.leb_le in H2. lia.
Qed.

Lemma finite_key_bounds (s : bool) (m : positive) (e : Z) :
  valid_binary (S754_finite s m e) = true ->
  0 < Zpos m * 2 ^ (e + 1074) < BIG.
Proof.
  intros Hv. apply valid_finite in Hv as (He & Hd & _).
  pose proof (digits2_pos_bounds m) as [_ Hm].
  assert (Hm53 : Zpos m < 2 ^ 53).
  { eapply Z.lt_le_trans; [exact Hm|]. apply pow2_le_mono; lia. }
  pose proof (pow2_pos (e + 1074) ltac:(lia)) as Hp.
  split; [lia|].
  unfold BIG. replace 2098 with (53 + 2045) by lia.
  rewrite (Z.pow_add_r 2 53 2045) by lia.
  assert (2 ^ (e + 1074) <= 2 ^ 2045) by (apply pow2_le_mono; lia).
  apply Z.lt_le_trans with (2 ^ 53 * 2 ^ (e + 1074)).
  - apply Z.mul_lt_mono_pos_r; lia.
  - apply Z.mul_le_mono_nonneg_l; lia.
Qed.

(** Of two canonical mantissas, the one with the smaller exponent is the
    smaller number. *)
Lemma canonical_lt (s1 s2 : bool) (m1 m2 : positive) (e1 e2 : Z) :
  valid_binary (S754_finite s1 m1 e1) = true ->
  valid_binary (S754_finite s2 m2 e2) = true ->
  e1 < e2 ->
  Zpos m1 * 2 ^ (e1 + 1074) < Zpos m2 * 2 ^ (e2 + 1074).
Proof.
  intros H1 H2 Hlt.
  apply valid_finite in H1 as (He1 & Hd1 & _).
  apply valid_finite in H2 as (He2 & _ & Hd2).
  pose proof (digits2_pos_bounds m1) as [_ Hm1].
  pose proof (digits2_pos_bounds m2) as [Hm2 _].
  rewrite Hd2 in Hm2 by lia. change (2 ^ (53 - 1)) with (2 ^ 52) in Hm2.
  assert (Hm53 : Zpos m1 < 2 ^ 53).
  { eapply Z.lt_le_trans; [exact Hm1|]. apply pow2_le_mono; lia. }
  pose proof (pow2_pos (e1 + 1074) ltac:(lia)) as Hp1.
  assert (Hstep : 2 * 2 ^ (e1 + 1074) <= 2 ^ (e2 + 1074)).
  { rewrite <- Z.pow_succ_r by lia. apply pow2_le_mono; lia. }
  apply Z.lt_le_trans with (2 ^ 53 * 2 ^ (e1 + 1074)).
  - apply Z.mul_lt_mono_pos_r; lia.
  - change (2 ^ 53) with (2 ^ 52 * 2). rewrite <- Z.mul_assoc.
    apply Z.le_trans with (2 ^ 52 * 2 ^ (e2 + 1074)).
    + apply Z.mul_le_mono_nonneg_l; lia.
    + apply Z.mul_le_mono_nonneg_r; lia.
Qed.

Lemma BIG_pos : 0 < BIG.
Proof. unfold BIG. apply pow2_pos. lia. Qed.

(** On valid floats that are not NaN, the comparison of [SpecFloat] is the
    comparison of the keys: a canonical mantissa makes the exponent decide. *)
Lemma SFcompare_key (u v : spec_float) :
  valid_binary u = true -> valid_binary v = true ->
  u <> S754_nan -> v <> S754_nan ->
  SFcompare u v = Some (key u ?= key v).
Proof.
  intros Hu Hv Nu Nv. pose proof BIG_pos as HB.
  destruct u as [su|su| |su mu eu]; try congruence;
  destruct v as [sv|sv| |sv mv ev]; try congruence; clear Nu Nv;
  try (pose proof (finite_key_bounds _ _ _ Hu) as Ku);
  try (pose proof (finite_key_bounds _ _ _ Hv) as Kv);
  unfold SFcompare, key; f_equal; symmetry.
  all: try solve
    [ unfold cond_Zopp;
      repeat (match goal with
              | |- context [if ?c then _ else _] => destruct c
              end);
      first [ reflexivity
            | apply Z.compare_eq_iff; lia
            | apply Z.compare_lt_iff; lia
            | apply Z.compare_gt_iff; lia ] ].
  - destruct su, sv; unfold cond_Zopp.
    + destruct (Z.compare_spec eu ev) as [->|Hlt|Hgt].
      * rewrite Z.compare_opp, <- Zmult_compare_compat_r by lia.
        change (Pos.compare_cont Eq mu mv) with (Pos.compare mu mv).
        rewrite <- Pos.compare_antisym. reflexivity.
      * apply Z.compare_gt_iff.
        pose proof (canonical_lt _ _ _ _ _ _ Hu Hv Hlt). lia.
      * apply Z.compare_lt_iff.
        pose proof (canonical_lt _ _ _ _ _ _ Hv Hu Hgt). lia.
    + apply Z.compare_lt_iff; lia.
    + apply Z.compare_gt_iff; lia.
    + destruct (Z.compare_spec eu ev) as [->|Hlt|Hgt].
      * rewrite <- Zmult_compare_compat_r by lia. reflexivity.
      * apply Z.compare_lt_iff. apply (canonical_lt _ _ _ _ _ _ Hu Hv Hlt).
      * apply Z.compare_gt_iff. apply (canonical_lt _ _ _ _ _ _ Hv Hu Hgt).
Qed.

Lemma SFltb_key (u v : spec_float) :
  valid_binary u = true -> valid_binary v = true ->
  u <> S754_nan -> v <> S754_nan ->
  SFltb u v = (key u <? key v).
Proof.
  intros. unfold SFltb, Z.ltb. rewrite SFcompare_key by assumption.
  destruct (key u ?= key v); reflexivity.
Qed.

Lemma SFleb_key (u v : spec_float) :
  valid_binary u = true -> valid_binary v = true ->
  u <> S754_nan -> v <> S754_nan ->
  SFleb u v = (key u <=? key v).
Proof.
  intros. unfold SFleb, Z.leb. rewrite SFcompare_key by assumption.
  destruct (key u ?= key v); reflexivity.
Qed.

(** [scaled] and [key] agree on the numbers, which lie strictly between the
    keys of the infinities. *)
Lemma scaled_key (u : spec_float) (n : Z) :
  valid_binary u = true -> scaled u = Some n ->
  u <> S754_nan /\ key u = n /\ - BIG < n < BIG.
Proof.
  intros Hv Hs. pose proof BIG_pos.
  destruct u as [s|s| |s m e]; unfold scaled in Hs; try discriminate;
    (split; [discriminate|]); (split; [unfold key; congruence|]).
  - assert (n = 0) by congruence. lia.
  - assert (n = cond_Zopp s (Z.pos m * 2 ^ (e + 1074))) as -> by congruence.
    pose proof (finite_key_bounds _ _ _ Hv). destruct s; unfold cond_Zopp; lia.
Qed.

Lemma key_scaled (u : spec_float) :
  u <> S754_nan -> - BIG < key u < BIG -> scaled u = Some (key u).
Proof.
  intros Hn Hk. destruct u as [s|[|]| |s m e]; unfold key, scaled in *; try congruence; lia.
Qed.

Lemma Zpos_denom1074 : Zpos denom1074 = 2 ^ 1074.
Proof. vm_compute. reflexivity. Qed.

(** ** Rounding: the exponent of the result *)

Lemma shr_m_of_loc (m : Z) (l : location) : shr_m (shr_record_of_loc m l) = m.
Proof. destruct l as [|[| |]]; reflexivity. Qed.

(** A shift to the right by one position takes one digit away. *)
Lemma shr_1_digits (mrs : shr_record) :
  Zdigits2 (shr_m (shr_1 mrs)) = Z.max 0 (Zdigits2 (shr_m mrs) - 1).
Proof.
  destruct mrs as [m r s].
  destruct m as [|[p|p|]|[p|p|]]; cbn [shr_1 shr_m Zdigits2 digits2_pos];
    rewrite ?Pos2Z.inj_succ; lia.
Qed.

Lemma shr_1_nonneg (mrs : shr_record) : 0 <= shr_m mrs -> 0 <= shr_m (shr_1 mrs).
Proof.
  destruct mrs as [m r s]. destruct m as [|[p|p|]|[p|p|]]; simpl; lia.
Qed.

Lemma iter_shr_1_digits (p : positive) (mrs : shr_record) :
  Zdigits2 (shr_m (iter_pos shr_1 p mrs)) = Z.max 0 (Zdigits2 (shr_m mrs) - Zpos p).
Proof.
  revert mrs. induction p as [p IH|p IH|]; intros mrs; simpl iter_pos.
  - rewrite !IH, shr_1_digits. lia.
  - rewrite !IH. lia.
  - apply shr_1_digits.
Qed.

Lemma iter_shr_1_nonneg (p : positive) (mrs : shr_record) :
  0 <= shr_m mrs -> 0 <= shr_m (iter_pos shr_1 p mrs).
Proof.
  revert mrs. induction p as [p IH|p IH|]; intros mrs H; simpl iter_pos.
  - apply IH, IH, shr_1_nonneg, H.
  - apply IH, IH, H.
  - apply shr_1_nonneg, H.
Qed.

(** What [shr_fexp] returns: the exponent, and a bound on the digits. *)
Lemma shr_fexp_spec (m e : Z) (l : location) :
  0 <= m ->
  exists mrs e',
    shr_fexp prec emax m e l = (mrs, e') /\
    0 <= shr_m mrs /\
    e' = Z.max e (fexp prec emax (Zdigits2 m + e)) /\
    Zdigits2 (shr_m mrs) + e' <= Z.max e' (Zdigits2 m + e).
Proof.
  intros Hm. unfold shr_fexp, shr.
  destruct (fexp prec emax (Zdigits2 m + e) - e) as [|p|p] eqn:En.
  - eexists; eexists; split; [reflexivity|]. rewrite shr_m_of_loc. repeat split; lia.
  - eexists; eexists; split; [reflexivity|].
    split; [apply iter_shr_1_nonneg; rewrite shr_m_of_loc; exact Hm|].
    rewrite iter_shr_1_digits, shr_m_of_loc. split; lia.
  - eexists; eexists; split; [reflexivity|]. rewrite shr_m_of_loc. repeat split; lia.
Qed.

Lemma round_nearest_even_bounds (m : Z) (l : location) :
  0 <= m -> 0 <= round_nearest_even m l /\ Zdigits2 (round_nearest_even m l) <= Zdigits2 m + 1.
Proof.
  intros Hm. pose proof (Zdigits2_succ m Hm). 
  destruct l as [|[| |]]; simpl; try (split; lia).
  destruct (Z.even m); split; lia.
Qed.

(** Rounding returns a zero or a number whose exponent is at most one above
    the exponent the mantissa is shifted to; it cannot overflow while that
    stays within the exponent range. *)
Lemma binary_round_aux_exp (s : bool) (m e : Z) (l : location) (E : Z) :
  0 <= m ->
  Z.max e (fexp prec emax (Zdigits2 m + e)) + 1 <= E -> E <= 971 ->
  exp_le E (binary_round_aux prec emax s m e l).
Proof.
  intros Hm HB HE. unfold binary_round_aux.
  destruct (shr_fexp_spec m e l Hm) as (mrs1 & e1 & -> & Hm1 & He1 & Hd1).
  destruct (round_nearest_even_bounds (shr_m mrs1) (loc_of_shr_record mrs1) Hm1) as [Hm2 Hd2].
  destruct (shr_fexp_spec _ e1 loc_Exact Hm2) as (mrs2 & e2 & -> & Hm3 & He2 & _).
  rewrite !fexp_eq in *.
  assert (He2' : e2 <= E) by lia.
  destruct (shr_m mrs2) as [|p|p]; simpl; try lia.
  change (emax - prec) with 971.
  destruct (Z.leb_spec e2 971); simpl; lia.
Qed.

Lemma binary_round_exp (s : bool) (m : positive) (e E : Z) :
  fexp prec emax (Zpos (digits2_pos m) + e) + 1 <= E -> E <= 971 ->
  exp_le E (binary_round prec emax s m e).
Proof.
  intros HB HE. unfold binary_round, shl_align.
  destruct (fexp prec emax (Zpos (digits2_pos m) + e) - e) as [|k|k] eqn:Ek.
  - apply binary_round_aux_exp; [lia | simpl Zdigits2; lia | exact HE].
  - apply binary_round_aux_exp; [lia | simpl Zdigits2; lia | exact HE].
  - apply binary_round_aux_exp; [lia | | exact HE].
    simpl Zdigits2. rewrite digits2_pos_shift, Pos2Z.inj_add.
    replace (Zpos (digits2_pos m) + Zpos k + fexp prec emax (Zpos (digits2_pos m) + e))
      with (Zpos (digits2_pos m) + e) by lia.
    lia.
Qed.

Lemma binary_normalize_exp (M e E : Z) (szero : bool) :
  fexp prec emax (Zdigits2 M + e) + 1 <= E -> E <= 971 ->
  exp_le E (binary_normalize prec emax M e szero).
Proof.
  intros HB HE. destruct M as [|m|m]; simpl binary_normalize.
  - exact Logic.I.
  - apply binary_round_exp; assumption.
  - apply binary_round_exp; assumption.
Qed.

Lemma exp_le_finite (E : Z) (x : float) : exp_le E (Prim2SF x) -> finite x = true.
Proof. unfold finite, exp_le. destruct (Prim2SF x); intros; try reflexivity; contradiction. Qed.

Lemma exp_le_weaken (E E' : Z) (u : spec_float) : E <= E' -> exp_le E u -> exp_le E' u.
Proof. intros HE. destruct u; simpl; lia. Qed.

Lemma exp_le_not_above (E : Z) (u : spec_float) :
  exp_le E u -> SFleb u (S754_infinity false) = true /\ SFltb (S754_infinity true) u = true.
Proof. destruct u; simpl; intros H; try contradiction; split; reflexivity. Qed.

(** ** The conversion of integers *)

(** A mantissa of 53 digits is not rounded. *)
Lemma binary_round_aux_canonical (s : bool) (m : positive) (e : Z) :
  Zpos (digits2_pos m) = 53 -> -1074 <= e <= 971 ->
  binary_round_aux prec emax s (Zpos m) e loc_Exact = S754_finite s m e.
Proof.
  intros Hd He.
  assert (Hshift : fexp prec emax (Zpos (digits2_pos m) + e) - e = 0).
  { rewrite fexp_eq. lia. }
  unfold binary_round_aux, shr_fexp, Zdigits2, shr_record_of_loc.
  rewrite Hshift. cbn [shr shr_m loc_of_shr_record round_nearest_even].
  unfold Zdigits2. rewrite Hshift. cbn [shr shr_m].
  change (emax - prec) with 971. 
  destruct (Z.leb_spec e 971); [reflexivity | lia].
Qed.

(** An integer below [2^53] is not rounded: its mantissa is shifted to 53
    digits. *)
Lemma binary_normalize_small (c : Z) :
  - 2 ^ 53 < c < 2 ^ 53 ->
  scaled (binary_normalize prec emax c 0 false) = Some (c * 2 ^ 1074) /\
  valid_binary (binary_normalize prec emax c 0 false) = true.
Proof.
  intros Hc.
  assert (Hgen : forall s m, Zpos m < 2 ^ 53 ->
            scaled (binary_round prec emax s m 0) = Some (cond_Zopp s (Zpos m) * 2 ^ 1074) /\
            valid_binary (binary_round prec emax s m 0) = true).
  { intros s m Hm.
    pose proof (digits2_pos_bounds m) as [Hlo Hhi].
    assert (Hd : Zpos (digits2_pos m) <= 53).
    { destruct (Z.le_gt_cases (Zpos (digits2_pos m)) 53) as [|Hgt]; [assumption|].
      exfalso. assert (2 ^ 53 <= 2 ^ (Zpos (digits2_pos m) - 1)) by (apply pow2_le_mono; lia).
      lia. }
    unfold binary_round. rewrite fexp_eq.
    replace (Z.max (Zpos (digits2_pos m) + 0 - 53) (-1074)) with (Zpos (digits2_pos m) - 53) by lia.
    unfold shl_align.
    destruct (Zpos (digits2_pos m) - 53 - 0) as [|k|k] eqn:Ek; try lia.
    - rewrite binary_round_aux_canonical by lia.
      split.
      + unfold scaled. f_equal. destruct s; unfold cond_Zopp; change (0 + 1074) with 1074; ring.
      + unfold valid_binary, SpecFloat.valid_binary, bounded, canonical_mantissa.
        rewrite fexp_eq. apply andb_true_intro; split; [apply Z.eqb_eq | apply Z.leb_le]; 
          change (emax - prec) with 971; lia.
    - assert (Hdk : Zpos (digits2_pos (Pos.iter xO m k)) = 53).
      { rewrite digits2_pos_shift. lia. }
      rewrite binary_round_aux_canonical by lia.
      split.
      + unfold scaled. f_equal. rewrite Zpos_shift.
        replace (Zpos (digits2_pos m) - 53 + 1074) with (1074 - Zpos k) by lia.
        assert (Hpow : 2 ^ 1074 = 2 ^ Zpos k * 2 ^ (1074 - Zpos k)).
        { rewrite <- Z.pow_add_r by lia. f_equal; lia. }
        rewrite Hpow. destruct s; unfold cond_Zopp; ring.
      + unfold valid_binary, SpecFloat.valid_binary, bounded, canonical_mantissa.
        rewrite fexp_eq, Hdk. apply andb_true_intro; split; [apply Z.eqb_eq | apply Z.leb_le]; 
          change (emax - prec) with 971; lia. }
  destruct c as [|m|m].
  - split; reflexivity.
  - apply (Hgen false m). lia.
  - destruct (Hgen true m) as [H1 H2]; [lia|]. split; [|exact H2].
    unfold binary_normalize. rewrite H1. f_equal.
Qed.

(** The sign does not matter to validity. *)
Lemma valid_binary_round_sign (m : positive) (e : Z) :
  valid_binary (binary_round prec emax true m e) =
  valid_binary (binary_round prec emax false m e).
Proof.
  unfold binary_round, binary_round_aux.
  destruct (shl_align m e _) as [mz ez].
  destruct (shr_fexp prec emax (Zpos mz) ez loc_Exact) as [mrs1 e1].
  destruct (shr_fexp prec emax _ e1 loc_Exact) as [mrs2 e2].
  destruct (shr_m mrs2); try reflexivity.
  destruct (e2 <=? emax - prec)%Z; reflexivity.
Qed.

(** [float64(n)] is the rounding of [n], for every [n] of 64 bits. *)
Lemma Prim2SF_float64_of_int (n : Z) :
  - 2 ^ 63 <= n <= 2 ^ 63 ->
  Prim2SF (float64_of_int n) = binary_normalize prec emax n 0 false.
Proof.
  intros Hn. unfold float64_of_int. apply Prim2SF_SF2Prim.
  destruct (Z.eq_dec n (2 ^ 63)) as [->|Hhi]; [vm_compute; reflexivity|].
  destruct (Z.eq_dec n (- 2 ^ 63)) as [->|Hlo]; [vm_compute; reflexivity|].
  assert (Hpos : forall z, 0 <= z < 2 ^ 63 ->
            valid_binary (binary_normalize prec emax z 0 false) = true).
  { intros z Hz.
    pose proof (Prim2SF_valid (of_uint63 (Uint63.of_Z z))) as Hv.
    rewrite of_uint63_spec, Uint63.of_Z_spec in Hv.
    rewrite Z.mod_small in Hv; [exact Hv|].
    change Uint63.wB with (2 ^ 63). exact Hz. }
  destruct n as [|m|m].
  - reflexivity.
  - apply Hpos. lia.
  - simpl binary_normalize. rewrite valid_binary_round_sign.
    apply (Hpos (Zpos m)). lia.
Qed.

(** [float64(c)] is [c] for every integer of at most 53 bits, and for
    [2^53] and [-2^53]. *)
Lemma float64_of_int_exact (c : Z) : representable c -> exact_int c.
Proof.
  unfold representable, exact_int. intros Hc.
  destruct (Z.eq_dec c (2 ^ 53)) as [->|Hhi]; [vm_compute; reflexivity|].
  destruct (Z.eq_dec c (- 2 ^ 53)) as [->|Hlo]; [vm_compute; reflexivity|].
  rewrite Prim2SF_float64_of_int by lia.
  apply binary_normalize_small. lia.
Qed.

(** The conversion of a 64-bit integer has an exponent of at most 12. *)
Lemma float64_of_int_exp (n : Z) :
  - 2 ^ 63 <= n <= 2 ^ 63 -> exp_le 12 (Prim2SF (float64_of_int n)).
Proof.
  intros Hn. rewrite Prim2SF_float64_of_int by exact Hn.
  apply binary_normalize_exp; [|lia].
  assert (Hd : Zdigits2 n <= 64).
  { destruct n as [|m|m]; simpl Zdigits2; try lia.
    - apply (Zdigits2_le (Zpos m) 64); lia.
    - apply (Zdigits2_le (Zpos m) 64); lia. }
  pose proof (Zdigits2_nonneg n). rewrite fexp_eq. lia.
Qed.

(** ** Halving and adding without overflow *)

(** Halving: the quotient of a canonical mantissa by 2 keeps the exponent
    within reach. *)
Lemma div_core_two (m : positive) (e : Z) :
  Zpos (digits2_pos m) <= 53 -> -1074 <= e ->
  exists q e' l,
    SFdiv_core_binary prec emax (Zpos m) e 4503599627370496 (-51) = (q, e', l) /\
    0 <= q /\ Z.max e' (fexp prec emax (Zdigits2 q + e')) <= e.
Proof.
  intros Hd He. unfold SFdiv_core_binary.
  change (Zdigits2 4503599627370496) with 53.
  change (Zdigits2 (Zpos m)) with (Zpos (digits2_pos m)).
  set (d := Zpos (digits2_pos m)) in *.
  set (e' := Z.min (fexp prec emax (d + e - (53 + -51))) (e - -51)).
  assert (He' : e' <= e /\ -1074 <= e').
  { unfold e'. rewrite fexp_eq. lia. }
  destruct (e - -51 - e') as [|p|p] eqn:Es; try lia.
  destruct (Z.div_eucl (Z.shiftl (Zpos m) (Zpos p)) 4503599627370496) as [q r] eqn:Edr.
  assert (Hq : q = Z.shiftl (Zpos m) (Zpos p) / 2 ^ 52).
  { unfold Z.div. change (2 ^ 52) with 4503599627370496. rewrite Edr. reflexivity. }
  exists q, e', (new_location 4503599627370496 r).
  split; [reflexivity|].
  rewrite Z.shiftl_mul_pow2 in Hq by lia.
  pose proof (digits2_pos_bounds m) as [_ Hm]. fold d in Hm.
  assert (Hd0 : 0 < d) by (unfold d; lia).
  assert (Hq0 : 0 <= q).
  { subst q. apply Z.div_pos; [|lia]. pose proof (pow2_pos (Zpos p)); lia. }
  split; [exact Hq0|].
  assert (Hqd : Zdigits2 q <= d + Zpos p - 52).
  { apply Zdigits2_le; [|lia]. split; [exact Hq0|].
    subst q. apply Z.div_lt_upper_bound; [lia|].
    rewrite <- Z.pow_add_r by lia.
    replace (52 + (d + Zpos p - 52)) with (d + Zpos p) by lia.
    rewrite Z.pow_add_r by lia.
    apply Z.mul_lt_mono_pos_r; [apply pow2_pos; lia | exact Hm]. }
  pose proof (Zdigits2_nonneg q).
  rewrite fexp_eq. lia.
Qed.

Lemma div_two_exp (x : float) (E : Z) :
  exp_le E (Prim2SF x) -> E < 971 -> exp_le (E + 1) (Prim2SF (x / 2)).
Proof.
  intros Hx HE. rewrite div_spec, Prim2SF_2.
  pose proof (Prim2SF_valid x) as Hv.
  destruct (Prim2SF x) as [s|s| |s m e]; simpl in Hx; try contradiction.
  - exact Logic.I.
  - apply valid_finite in Hv as (He & Hd & _).
    unfold SF64div, SFdiv.
    destruct (div_core_two m e Hd (proj1 He)) as (q & e' & l & -> & Hq & Hb).
    apply binary_round_aux_exp; lia.
Qed.

(** Adding two numbers of small exponent cannot overflow. *)
Lemma shl_align_fst (m : positive) (e ez : Z) :
  ez <= e -> Zpos (fst (shl_align m e ez)) = Zpos m * 2 ^ (e - ez).
Proof.
  intros Hle. unfold shl_align.
  destruct (ez - e) as [|k|k] eqn:Ek; try lia.
  - replace (e - ez) with 0 by lia. simpl fst. lia.
  - simpl fst. rewrite Zpos_shift. f_equal. f_equal. lia.
Qed.

Lemma add_exp (x y : float) (E : Z) :
  exp_le E (Prim2SF x) -> exp_le E (Prim2SF y) -> E + 2 <= 971 ->
  exp_le (E + 2) (Prim2SF (x + y)).
Proof.
  intros Hx Hy HE. rewrite add_spec.
  pose proof (Prim2SF_valid x) as Vx. pose proof (Prim2SF_valid y) as Vy.
  destruct (Prim2SF x) as [sx|sx| |sx mx ex]; simpl in Hx; try contradiction;
  destruct (Prim2SF y) as [sy|sy| |sy my ey]; simpl in Hy; try contradiction;
  unfold SF64add, SFadd.
  - destruct sx, sy; exact Logic.I.
  - simpl. lia.
  - simpl. lia.
  - apply valid_finite in Vx as (Hex & Hdx & _).
    apply valid_finite in Vy as (Hey & Hdy & _).
    pose proof (digits2_pos_bounds mx) as [_ Hmx].
    pose proof (digits2_pos_bounds my) as [_ Hmy].
    assert (Hmx53 : Zpos mx < 2 ^ 53).
    { eapply Z.lt_le_trans; [exact Hmx|]. apply pow2_le_mono; lia. }
    assert (Hmy53 : Zpos my < 2 ^ 53).
    { eapply Z.lt_le_trans; [exact Hmy|]. apply pow2_le_mono; lia. }
    set (ez := Z.min ex ey).
    rewrite (shl_align_fst mx ex ez), (shl_align_fst my ey ez) by (unfold ez; lia).
    set (ax := Zpos mx * 2 ^ (ex - ez)). set (ay := Zpos my * 2 ^ (ey - ez)).
    set (top := 53 + (Z.max ex ey - ez)).
    assert (Htop : 0 <= top) by (unfold top, ez; lia).
    assert (Hax : 0 < ax < 2 ^ top).
    { unfold ax. pose proof (pow2_pos (ex - ez) ltac:(unfold ez; lia)).
      split; [lia|]. unfold top. rewrite Z.pow_add_r by (unfold ez; lia).
      apply Z.lt_le_trans with (2 ^ 53 * 2 ^ (ex - ez)).
      - apply Z.mul_lt_mono_pos_r; lia.
      - apply Z.mul_le_mono_nonneg_l; [lia|]. apply pow2_le_mono; unfold ez; lia. }
    assert (Hay : 0 < ay < 2 ^ top).
    { unfold ay. pose proof (pow2_pos (ey - ez) ltac:(unfold ez; lia)).
      split; [lia|]. unfold top. rewrite Z.pow_add_r by (unfold ez; lia).
      apply Z.lt_le_trans with (2 ^ 53 * 2 ^ (ey - ez)).
      - apply Z.mul_lt_mono_pos_r; lia.
      - apply Z.mul_le_mono_nonneg_l; [lia|]. apply pow2_le_mono; unfold ez; lia. }
    apply binary_normalize_exp; [|lia].
    assert (Hsum : Zdigits2 (cond_Zopp sx ax + cond_Zopp sy ay) <= top + 1).
    { assert (Habs : forall M, - 2 ^ (top + 1) < M < 2 ^ (top + 1) -> Zdigits2 M <= top + 1).
      { intros M HM. destruct M as [|p|p]; simpl Zdigits2; try lia.
        - apply (Zdigits2_le (Zpos p)); lia.
        - apply (Zdigits2_le (Zpos p)); lia. }
      apply Habs.
      replace (top + 1) with (Z.succ top) by lia. rewrite Z.pow_succ_r by lia.
      destruct sx, sy; unfold cond_Zopp; lia. }
    pose proof (Zdigits2_nonneg (cond_Zopp sx ax + cond_Zopp sy ay)).
    rewrite fexp_eq. unfold top, ez in *. lia.
Qed.

End Binary64.

Import Binary64.

#[local] Close Scope float_scope.

(** * The bounds check *)

(** One axis of [inBounds]. *)
Lemma axis_check (x : float) (lo hi : Z) :
  exact_int lo -> exact_int hi -> isNaN x = false ->
  ((x <? float64_of_int lo)%float || geb x (float64_of_int hi) = false <->
   exists n, scaled (Prim2SF x) = Some n /\ lo * 2 ^ 1074 <= n < hi * 2 ^ 1074).
Proof.
  intros Hlo Hhi Hx. unfold geb.
  rewrite ltb_spec, leb_spec.
  apply scaled_key in Hlo as (Nlo & Klo & Blo); [|apply Prim2SF_valid].
  apply scaled_key in Hhi as (Nhi & Khi & Bhi); [|apply Prim2SF_valid].
  assert (Nx : Prim2SF x <> S754_nan).
  { unfold isNaN in Hx. destruct (Prim2SF x); congruence. }
  rewrite SFltb_key, SFleb_key by (try apply Prim2SF_valid; assumption).
  rewrite Klo, Khi. rewrite orb_false_iff, Z.ltb_ge, Z.leb_gt.
  split.
  - intros [H1 H2]. exists (key (Prim2SF x)). split; [|lia].
    apply key_scaled; [assumption | lia].
  - intros (n & Hn & H1 & H2).
    apply scaled_key in Hn as (_ & <- & _); [lia | apply Prim2SF_valid].
Qed.

(** The same test on the rational the float stands for. *)
Lemma axis_real (x : float) (lo hi : Z) :
  (exists n, scaled (Prim2SF x) = Some n /\ lo * 2 ^ 1074 <= n < hi * 2 ^ 1074) <->
  (exists q, real_of_float x = Some q /\ (inject_Z lo <= q)%Q /\ (q < inject_Z hi)%Q).
Proof.
  unfold real_of_float. split.
  - intros (n & -> & H1 & H2). exists (n # denom1074). split; [reflexivity|].
    unfold Qle, Qlt, inject_Z. cbn [Qnum Qden]. rewrite Zpos_denom1074. lia.
  - intros (q & Hq & H1 & H2).
    destruct (scaled (Prim2SF x)) as [n|]; [|discriminate].
    exists n. split; [reflexivity|].
    assert (q = n # denom1074) as -> by congruence.
    unfold Qle, Qlt, inject_Z in H1, H2. cbn [Qnum Qden] in H1, H2.
    rewrite Zpos_denom1074 in H1, H2. lia.
Qed.

(** C2 (amended): on a rectangle whose coordinates float64 holds exactly and
    on coordinates that are not NaN, [inBounds] is the half-open test on the
    real numbers: it returns true exactly when [x] and [y] are numbers (not
    infinities) with [Min.X <= x < Max.X] and [Min.Y <= y < Max.Y]. *)
Theorem inBounds_iff_real_bounds (b : Rectangle) (x y : float) :
  representable_rect b -> isNaN x = false -> isNaN y = false ->
  (inBounds b x y = true <->
   exists qx qy : Q,
     real_of_float x = Some qx /\ real_of_float y = Some qy /\
     (inject_Z (X (Min b)) <= qx)%Q /\ (qx < inject_Z (X (Max b)))%Q /\
     (inject_Z (Y (Min b)) <= qy)%Q /\ (qy < inject_Z (Y (Max b)))%Q).
Proof.
  intros (R1 & R2 & R3 & R4) Nx Ny.
  apply float64_of_int_exact in R1, R2, R3, R4.
  pose proof (axis_check x _ _ R1 R2 Nx) as Hx.
  pose proof (axis_check y _ _ R3 R4 Ny) as Hy.
  rewrite axis_real in Hx, Hy.
  unfold inBounds.
  destruct ((x <? float64_of_int (X (Min b)))%float || geb x (float64_of_int (X (Max b)))).
  - split; [discriminate|].
    intros (qx & qy & Hqx & _ & H1 & H2 & _).
    symmetry. apply Hx. eauto.
  - destruct ((y <? float64_of_int (Y (Min b)))%float || geb y (float64_of_int (Y (Max b)))).
    + split; [discriminate|].
      intros (qx & qy & _ & Hqy & _ & _ & H1 & H2).
      symmetry. apply Hy. eauto.
    + split; [|reflexivity]. intros _.
      destruct (proj1 Hx eq_refl) as (qx & ? & ? & ?).
      destruct (proj1 Hy eq_refl) as (qy & ? & ? & ?).
      exists qx, qy. auto 10.
Qed.

Lemma inBounds_iff_real_bounds_witness :
  inBounds (Rect 0 0 2 2) 0.5 1.5 = true <->
  exists qx qy : Q,
    real_of_float 0.5 = Some qx /\ real_of_float 1.5 = Some qy /\
    (inject_Z 0 <= qx)%Q /\ (qx < inject_Z 2)%Q /\
    (inject_Z 0 <= qy)%Q /\ (qy < inject_Z 2)%Q.
Proof.
  apply (inBounds_iff_real_bounds (Rect 0 0 2 2) 0.5 1.5).
  - unfold representable_rect, representable; simpl; lia.
  - reflexivity.
  - reflexivity.
Defined.

(** C2, as stated, fails twice.  On [far_rect] the point [(2^53, 0.5)]
    passes the check although [2^53 < Min.X = 2^53 + 1]: the bounds are
    compared after their conversion to float64, which rounds them.  And a
    NaN coordinate passes the check. *)
Lemma inBounds_differs_from_real_bounds :
  (inBounds far_rect 9007199254740992 0.5 = true /\
   exists q : Q,
     real_of_float 9007199254740992 = Some q /\
     ~ (inject_Z (X (Min far_rect)) <= q)%Q) /\
  inBounds (Rect 0 0 2 2) nan 0.5 = true.
Proof.
  split; [split|].
  - vm_compute; reflexivity.
  - eexists; split; [vm_compute; reflexivity|].
    unfold Qle. intros H. vm_compute in H. apply H. reflexivity.
  - vm_compute; reflexivity.
Qed.

(** X1: a NaN passes both comparisons of its axis ([x < min] and
    [x >= max] are false), so the check is decided by the other coordinate
    alone. *)
Theorem inBounds_NaN_x (b : Rectangle) (x y : float) :
  isNaN x = true ->
  inBounds b x y =
  negb ((y <? float64_of_int (Y (Min b)))%float || geb y (float64_of_int (Y (Max b)))).
Proof.
  intros Hx. unfold inBounds, geb. rewrite (ltb_spec x), (leb_spec _ x).
  unfold isNaN in Hx. destruct (Prim2SF x); try discriminate.
  unfold SFltb, SFleb, SFcompare.
  destruct (Prim2SF (float64_of_int (X (Min b)))), (Prim2SF (float64_of_int (X (Max b))));
    simpl; destruct (_ || _); reflexivity.
Qed.

Lemma inBounds_NaN_x_witness :
  inBounds (Rect 0 0 2 2) nan 0.5%float =
  negb ((0.5 <? float64_of_int 0)%float || geb 0.5%float (float64_of_int 2)).
Proof. apply (inBounds_NaN_x (Rect 0 0 2 2) nan 0.5%float). reflexivity. Defined.

Lemma inBounds_NaN_y (b : Rectangle) (x y : float) :
  isNaN y = true ->
  inBounds b x y =
  negb ((x <? float64_of_int (X (Min b)))%float || geb x (float64_of_int (X (Max b)))).
Proof.
  intros Hy. unfold inBounds, geb. rewrite (ltb_spec y), (leb_spec _ y).
  unfold isNaN in Hy. destruct (Prim2SF y); try discriminate.
  unfold SFltb, SFleb, SFcompare.
  destruct (Prim2SF (float64_of_int (Y (Min b)))), (Prim2SF (float64_of_int (Y (Max b))));
    simpl; destruct (_ || _); reflexivity.
Qed.

Lemma axis_rejects_infinity (x : float) (lo hi : Z) :
  is_int lo -> is_int hi -> isInf x = true ->
  ((x <? float64_of_int lo)%float || geb x (float64_of_int hi)) = true.
Proof.
  unfold is_int, isInf, geb. intros Hlo Hhi Hx.
  rewrite ltb_spec, leb_spec.
  pose proof (float64_of_int_exp lo ltac:(lia)) as Elo.
  pose proof (float64_of_int_exp hi ltac:(lia)) as Ehi.
  apply exp_le_not_above in Elo as [_ Elo]. apply exp_le_not_above in Ehi as [Ehi _].
  destruct (Prim2SF x) as [|[|]| |]; try discriminate.
  - rewrite Elo. reflexivity.
  - rewrite Ehi. apply orb_true_r.
Qed.

(** X2: an infinite coordinate fails the check on every rectangle of 64-bit
    coordinates, whatever the other coordinate is. *)
Theorem inBounds_rejects_infinity (b : Rectangle) (x y : float) :
  int_rect b -> isInf x = true \/ isInf y = true -> inBounds b x y = false.
Proof.
  intros (B1 & B2 & B3 & B4) Hinf. unfold inBounds.
  destruct Hinf as [Hx | Hy].
  - rewrite (axis_rejects_infinity x _ _ B1 B2 Hx). reflexivity.
  - rewrite (axis_rejects_infinity y _ _ B3 B4 Hy).
    destruct (_ || _); reflexivity.
Qed.

Lemma inBounds_rejects_infinity_witness :
  inBounds (Rect 0 0 2 2) 0.5%float neg_infinity = false.
Proof.
  apply (inBounds_rejects_infinity (Rect 0 0 2 2) 0.5%float neg_infinity).
  - unfold int_rect, is_int; simpl; lia.
  - right; reflexivity.
Defined.

(** * The bottom row *)

Lemma wrap64_is_int (z : Z) : is_int (wrap64 z).
Proof.
  unfold is_int, wrap64.
  pose proof (Z.mod_pos_bound (z + 2 ^ 63) (2 ^ 64) ltac:(lia)). lia.
Qed.

(** [float64(lo) + float64(size)/2] does not overflow. *)
Lemma center_coord_finite (lo size : Z) :
  is_int lo -> is_int size ->
  finite (float64_of_int lo + float64_of_int size / 2)%float = true.
Proof.
  unfold is_int. intros Hlo Hsize.
  apply (exp_le_finite 15). change 15 with (13 + 2).
  apply add_exp; [| |lia].
  - apply (exp_le_weaken 12); [lia|]. apply float64_of_int_exp; lia.
  - change 13 with (12 + 1). apply div_two_exp; [|lia].
    apply float64_of_int_exp; lia.
Qed.

#[local] Open Scope float_scope.

(** The product keeps the bottom row [(0, 0, 1)] when the upper rows of the
    right factor are numbers. *)
Lemma Mul_bottom_row (a b : Affine) :
  bottom_row_affine a -> bottom_row_affine b -> upper_rows_finite b ->
  bottom_row_affine (Mul a b).
Proof.
  intros (A6 & A7 & A8) (B6 & B7 & B8) (F0 & F1 & F2 & F3 & F4 & F5).
  unfold bottom_row_affine, Mul; simpl.
  rewrite A6, A7, A8, B6, B7, B8.
  change (1 * 0) with 0. change (1 * 1) with 1.
  repeat split.
  - apply add_zeroish_0, add_zeroish; apply mul_zeroish_finite; auto with binary64.
  - apply add_zeroish_0, add_zeroish; apply mul_zeroish_finite; auto with binary64.
  - apply add_zeroish_1, add_zeroish; apply mul_zeroish_finite; auto with binary64.
Qed.

Lemma Scale_bottom_row (a : Affine) (x y : float) :
  bottom_row_affine a -> finite (1 / x) = true -> finite (1 / y) = true ->
  bottom_row_affine (Scale a x y).
Proof.
  intros Ha Hx Hy. apply Mul_bottom_row; [exact Ha | repeat split |].
  unfold upper_rows_finite; simpl. auto 10 with binary64.
Qed.

Lemma Translate_bottom_row (a : Affine) (x y : float) :
  bottom_row_affine a -> finite x = true -> finite y = true ->
  bottom_row_affine (Translate a x y).
Proof.
  intros Ha Hx Hy. apply Mul_bottom_row; [exact Ha | repeat split |].
  unfold upper_rows_finite; simpl. rewrite !finite_opp.
  auto 10 with binary64.
Qed.

Lemma Shear_bottom_row (a : Affine) (x y : float) :
  bottom_row_affine a -> upper_rows_finite (shearing x y (1 - x * y)) ->
  bottom_row_affine (Shear a x y).
Proof.
  intros Ha Hs. apply Mul_bottom_row; [exact Ha | repeat split | exact Hs].
Qed.

Lemma Rotate_bottom_row (Sincos : float -> float * float) (a : Affine) (angle : float) :
  bottom_row_affine a ->
  finite (fst (Sincos angle)) = true -> finite (snd (Sincos angle)) = true ->
  bottom_row_affine (Rotate Sincos a angle).
Proof.
  intros Ha. unfold Rotate. destruct (Sincos angle) as [s c]; simpl. intros Hs Hc.
  apply Mul_bottom_row; [exact Ha | repeat split |].
  unfold upper_rows_finite; simpl. rewrite finite_opp.
  auto 10 with binary64.
Qed.

Lemma Center_bottom_row (a : Affine) (x y : float) :
  bottom_row_affine a -> upper_rows_finite a ->
  finite x = true -> finite y = true ->
  bottom_row_affine (Center a x y).
Proof.
  intros Ha Fa Hx Hy. unfold Center.
  apply Translate_bottom_row; [|exact Hx|exact Hy].
  apply Mul_bottom_row; [|exact Ha|exact Fa].
  apply Translate_bottom_row; [repeat split | |]; rewrite finite_opp; assumption.
Qed.

Lemma CenterFit_bottom_row (a : Affine) (dst src : Rectangle) :
  bottom_row_affine a -> upper_rows_finite a ->
  int_rect dst -> int_rect src ->
  bottom_row_affine (CenterFit a dst src).
Proof.
  intros Ha Fa (D1 & _ & D2 & _) (S1 & _ & S2 & _). unfold CenterFit.
  pose proof (wrap64_is_int (X (Max dst) - X (Min dst))) as Wdx.
  pose proof (wrap64_is_int (Y (Max dst) - Y (Min dst))) as Wdy.
  pose proof (wrap64_is_int (X (Max src) - X (Min src))) as Wsx.
  pose proof (wrap64_is_int (Y (Max src) - Y (Min src))) as Wsy.
  apply Translate_bottom_row;
    [|apply center_coord_finite; assumption|apply center_coord_finite; assumption].
  apply Mul_bottom_row; [|exact Ha|exact Fa].
  apply Translate_bottom_row; [repeat split | |];
    rewrite finite_opp; apply center_coord_finite; assumption.
Qed.

(** C5 (amended): a matrix whose bottom row is exactly [(0, 0, 1)] keeps it
    under [Mul] by a matrix with that bottom row and numbers in its two
    upper rows, and under each builder whose composed matrix holds numbers:
    [Scale] when [1/x] and [1/y] are numbers, [Rotate] when the sine and the
    cosine are, [Shear] when the four quotients by [d] are, [Translate] when
    [x] and [y] are, [Center] and [CenterFit] when moreover the upper rows
    of the matrix itself are numbers. *)
Theorem bottom_row_preserved
  (Sincos : float -> float * float) (a b : Affine) (x y angle : float)
  (dst src : Rectangle) :
  bottom_row_affine a ->
  (bottom_row_affine b -> upper_rows_finite b -> bottom_row_affine (Mul a b)) /\
  (finite (1 / x) = true -> finite (1 / y) = true -> bottom_row_affine (Scale a x y)) /\
  (finite (fst (Sincos angle)) = true -> finite (snd (Sincos angle)) = true ->
   bottom_row_affine (Rotate Sincos a angle)) /\
  (upper_rows_finite (shearing x y (1 - x * y)) -> bottom_row_affine (Shear a x y)) /\
  (finite x = true -> finite y = true -> bottom_row_affine (Translate a x y)) /\
  (upper_rows_finite a -> finite x = true -> finite y = true ->
   bottom_row_affine (Center a x y)) /\
  (upper_rows_finite a -> int_rect dst -> int_rect src ->
   bottom_row_affine (CenterFit a dst src)).
Proof.
  intros Ha. repeat match goal with |- _ /\ _ => split end.
  - intros Hb Fb. apply Mul_bottom_row; assumption.
  - intros Hx Hy. apply Scale_bottom_row; assumption.
  - intros Hs Hc. apply Rotate_bottom_row; assumption.
  - intros Hs. apply Shear_bottom_row; assumption.
  - intros Hx Hy. apply Translate_bottom_row; assumption.
  - intros Fa Hx Hy. apply Center_bottom_row; assumption.
  - intros Fa Hd Hs. apply CenterFit_bottom_row; assumption.
Qed.

Lemma bottom_row_preserved_witness :
  bottom_row_affine (Mul I (scaling 2 4)) /\
  bottom_row_affine (Scale I 2 4) /\
  bottom_row_affine (Rotate sincos_of_zero I 0) /\
  bottom_row_affine (Shear I 2 4) /\
  bottom_row_affine (Translate I 2 4) /\
  bottom_row_affine (Center I 2 4) /\
  bottom_row_affine (CenterFit I (Rect 0 0 4 4) (Rect 0 0 2 2)).
Proof.
  destruct (bottom_row_preserved sincos_of_zero I (scaling 2 4) 2 4 0
              (Rect 0 0 4 4) (Rect 0 0 2 2))
    as (H1 & H2 & H3 & H4 & H5 & H6 & H7).
  - repeat split.
  - repeat match goal with |- _ /\ _ => split end.
    + apply H1; [repeat split | repeat split; vm_compute; reflexivity].
    + apply H2; vm_compute; reflexivity.
    + apply H3; vm_compute; reflexivity.
    + apply H4. repeat split; vm_compute; reflexivity.
    + apply H5; vm_compute; reflexivity.
    + apply H6; [repeat split; vm_compute; reflexivity | |]; vm_compute; reflexivity.
    + apply H7; [repeat split; vm_compute; reflexivity | |];
        unfold int_rect, is_int; simpl; lia.
Defined.

(** C5, as stated, fails when an entry is not a number: the bottom rows of
    [I] and of [diag(1/0, 1/1, 1)] are [(0, 0, 1)], and the first entry of
    the bottom row of their product, [0 * Inf + 0 * 0 + 1 * 0], is NaN.  That
    product is [I.Scale(0, 1)]. *)
Lemma bottom_row_lost_on_infinity :
  bottom_row_affine I /\ bottom_row_affine (scaling 0 1) /\
  el6 (Mul I (scaling 0 1)) = nan /\
  ~ bottom_row_affine (Mul I (scaling 0 1)) /\
  ~ bottom_row_affine (Scale I 0 1).
Proof.
  assert (Hnan : nan <> 0).
  { apply float_neq. vm_compute. discriminate. }
  repeat match goal with |- _ /\ _ => split end.
  - repeat split.
  - repeat split.
  - reflexivity.
  - intros (H6 & _). apply Hnan. exact H6.
  - intros (H6 & _). apply Hnan. exact H6.
Qed.

(** * Scale and Shear on degenerate arguments *)

(** C7: [Scale] multiplies on the right by [diag(1/x, 1/y, 1)]; a zero factor
    is no error, its reciprocal is an infinity of the sign of the zero. *)
Theorem Scale_is_Mul_by_reciprocals (a : Affine) (x y : float) :
  Scale a x y = Mul a (scaling x y) /\
  scaling x y = mkAffine (1 / x) 0 0 0 (1 / y) 0 0 0 1 /\
  el0 (scaling 0 y) = infinity /\ el0 (scaling (- 0) y) = neg_infinity /\
  el4 (scaling x 0) = infinity /\ el4 (scaling x (- 0)) = neg_infinity.
Proof. repeat split. Qed.

(** C8: [Shear] returns the product by the inverse shear matrix of divisor
    [d = 1 - x*y] for all arguments; when [x*y = 1] the divisor is [0], the
    diagonal entries [1/d] are [+Inf], and the four upper-left entries of
    the result are infinities or NaN. *)
Theorem Shear_total_degenerate (a : Affine) (x y : float) :
  Shear a x y = Mul a (shearing x y (1 - x * y)) /\
  (x * y = 1 ->
   1 - x * y = 0 /\ 1 / (1 - x * y) = infinity /\
   finite (el0 (Shear a x y)) = false /\ finite (el1 (Shear a x y)) = false /\
   finite (el3 (Shear a x y)) = false /\ finite (el4 (Shear a x y)) = false).
Proof.
  split; [reflexivity|]. intros Hxy.
  unfold Shear, Mul; simpl. rewrite Hxy.
  change (1 - 1) with 0. change (1 / 0) with infinity.
  repeat match goal with |- _ /\ _ => split end; try reflexivity.
  - apply add_not_finite_l, add_not_finite_l.
    apply (mul_infinity_not_finite _ _ false Prim2SF_infinity).
  - apply add_not_finite_l, add_not_finite_r.
    apply (mul_infinity_not_finite _ _ false Prim2SF_infinity).
  - apply add_not_finite_l, add_not_finite_l.
    apply (mul_infinity_not_finite _ _ false Prim2SF_infinity).
  - apply add_not_finite_l, add_not_finite_r.
    apply (mul_infinity_not_finite _ _ false Prim2SF_infinity).
Qed.

Lemma Shear_total_degenerate_witness :
  Shear I 2 0.5 = Mul I (shearing 2 0.5 (1 - 2 * 0.5)) /\
  1 - 2 * 0.5 = 0 /\ 1 / (1 - 2 * 0.5) = infinity /\
  finite (el0 (Shear I 2 0.5)) = false /\ finite (el1 (Shear I 2 0.5)) = false /\
  finite (el3 (Shear I 2 0.5)) = false /\ finite (el4 (Shear I 2 0.5)) = false.
Proof.
  destruct (Shear_total_degenerate I 2 0.5) as [H1 H2].
  split; [exact H1 | apply H2; reflexivity].
Defined.

(** * The loop over the destination *)

#[local] Close Scope float_scope.

Lemma span_empty (lo hi : Z) : hi <= lo -> span lo hi = [].
Proof. intros H. unfold span. replace (Z.to_nat (hi - lo)) with O by lia. reflexivity. Qed.

Lemma inRect_empty (r : Rectangle) (x y : Z) : empty_rect r -> inRect r x y = false.
Proof.
  unfold empty_rect, inRect. intros H.
  destruct (Z.leb_spec (X (Min r)) x), (Z.ltb_spec x (X (Max r))),
           (Z.leb_spec (Y (Min r)) y), (Z.ltb_spec y (Y (Max r))); simpl; try reflexivity; lia.
Qed.

(** A loop whose body changes nothing changes nothing. *)
Lemma fold_left_id {A B : Type} (f : A -> B -> A) (l : list B) (a : A) :
  (forall st v, f st v = st) -> fold_left f l a = a.
Proof. intros Hf. induction l as [|v l IH]; simpl; [reflexivity|]. now rewrite Hf. Qed.

(** A property that every iteration keeps holds after the loop. *)
Lemma fold_left_keep {A B : Type} (f : A -> B -> A) (P : A -> Prop) :
  (forall st v, P st -> P (f st v)) ->
  forall l st, P st -> P (fold_left f l st).
Proof.
  intros Hkeep. induction l as [|v l IH]; intros st Hst; simpl; [exact Hst|].
  apply IH, Hkeep, Hst.
Qed.

(** A property that some iteration establishes and every iteration keeps
    holds after the loop. *)
Lemma fold_left_establish {A B : Type} (f : A -> B -> A) (P : A -> Prop) (x : B) :
  (forall st v, P st -> P (f st v)) ->
  (forall st, P (f st x)) ->
  forall l st, In x l -> P (fold_left f l st).
Proof.
  intros Hkeep Hset.
  induction l as [|v l IH]; intros st Hin; simpl; [contradiction|].
  destruct Hin as [-> | Hin]; [apply fold_left_keep; [exact Hkeep | apply Hset] | apply IH, Hin].
Qed.

Section Destination.
Variable binterpRGBA : RGBA -> Z -> Z -> RGBA -> float -> float -> RGBA.

Lemma rows_empty (a : Affine) (srcb : Rectangle) (s : srcBuffer) (b : Rectangle) (cur : RGBA) :
  empty_rect b -> rows binterpRGBA a srcb s b cur = cur.
Proof.
  intros [Hx | Hy]; unfold rows.
  - apply fold_left_id. intros st v. unfold row. now rewrite span_empty.
  - now rewrite span_empty.
Qed.

Lemma Transform_returns (a : Affine) (dst src : option loc) (h : heap) :
  exists e h', Transform binterpRGBA a dst src h = Ok (e, h').
Proof.
  unfold Transform.
  destruct dst as [d|]; [destruct src as [s|]|]; try (eexists; eexists; reflexivity).
  destruct (h d); eexists; eexists; reflexivity.
Qed.

(** X5: on a destination whose bounds hold no pixel ([Max.X <= Min.X] or
    [Max.Y <= Min.Y]) [Transform] returns nil and the destination keeps its
    bounds and the color of every point, whatever its type, the matrix and
    the source. *)
Theorem Transform_empty_destination (a : Affine) (d s : loc) (h : heap) :
  empty_rect (Bounds (h d)) ->
  exists h',
    Transform binterpRGBA a (Some d) (Some s) h = Ok (None, h') /\
    Bounds (h' d) = Bounds (h d) /\
    forall x y, At (h' d) x y = At (h d) x y.
Proof.
  intros He. unfold Transform.
  destruct (h d) as [r|g] eqn:Hd; simpl in He.
  - eexists; split; [reflexivity|]. rewrite upd_same, rows_empty by exact He.
    split; reflexivity.
  - eexists; split; [reflexivity|]. rewrite upd_same. simpl.
    split; [reflexivity|]. intros x y. unfold drawn.
    rewrite (inRect_empty _ x y He). reflexivity.
Qed.

Section OnePixel.
Variables (a : Affine) (srcb : Rectangle) (src : RGBA) (b : Rectangle).
Variables (x y : Z) (c : Color).

Hypothesis binterp_frame : forall dst x y src sx sy x' y',
  (x', y') <> (x, y) ->
  RGBA_Pix (binterpRGBA dst x y src sx sy) x' y' = RGBA_Pix dst x' y'.
Hypothesis inside : inBounds srcb (fst (pt a x y)) (snd (pt a x y)) = true.
Hypothesis sample : forall st,
  RGBA_Pix (binterpRGBA st x y src (fst (pt a x y)) (snd (pt a x y))) x y = c.

Lemma pixel_sets (st : RGBA) :
  RGBA_Pix (pixel binterpRGBA a srcb (OwnBuffer src) y x st) x y = c.
Proof.
  unfold pixel. destruct (pt a x y) as [sx sy]. simpl in *.
  rewrite inside. simpl. apply sample.
Qed.

Lemma pixel_keeps_sampled (y' x' : Z) (st : RGBA) :
  RGBA_Pix st x y = c ->
  RGBA_Pix (pixel binterpRGBA a srcb (OwnBuffer src) y' x' st) x y = c.
Proof.
  intros Hst.
  destruct (Z.eq_dec x' x) as [->|Hx]; [destruct (Z.eq_dec y' y) as [->|Hy]|].
  - apply pixel_sets.
  - unfold pixel. destruct (pt a x y') as [sx sy].
    destruct (inBounds srcb sx sy); [|exact Hst].
    simpl. rewrite binterp_frame; [exact Hst | congruence].
  - unfold pixel. destruct (pt a x' y') as [sx sy].
    destruct (inBounds srcb sx sy); [|exact Hst].
    simpl. rewrite binterp_frame; [exact Hst | congruence].
Qed.

(** After the two loops a pixel of the bounds whose point passes the check
    holds what the sampler wrote there. *)
Lemma rows_sampled (st : RGBA) :
  inRect b x y = true ->
  RGBA_Pix (rows binterpRGBA a srcb (OwnBuffer src) b st) x y = c.
Proof.
  intros Hin. unfold inRect in Hin.
  apply andb_prop in Hin as [Hin Hy4]. apply andb_prop in Hin as [Hin Hy3].
  apply andb_prop in Hin as [Hx1 Hx2].
  apply Z.leb_le in Hx1, Hy3. apply Z.ltb_lt in Hx2, Hy4.
  unfold rows.
  apply (fold_left_establish
           (fun st y' => row binterpRGBA a srcb (OwnBuffer src) b y' st)
           (fun st => RGBA_Pix st x y = c) y).
  - intros st' y' Hst. unfold row.
    apply (fold_left_keep
             (fun st x' => pixel binterpRGBA a srcb (OwnBuffer src) y' x' st)
             (fun st => RGBA_Pix st x y = c)); [|exact Hst].
    intros st'' x' H''. apply pixel_keeps_sampled, H''.
  - intros st'. unfold row.
    apply (fold_left_establish
             (fun st x' => pixel binterpRGBA a srcb (OwnBuffer src) y x' st)
             (fun st => RGBA_Pix st x y = c) x).
    + intros st'' x' H''. apply pixel_keeps_sampled, H''.
    + apply pixel_sets.
    + apply in_span. lia.
  - apply in_span. lia.
Qed.

End OnePixel.

(** The sampler contract of the pipeline: [binterpRGBA] keeps the bounds of
    the buffer it writes to, writes pixel [(x, y)] only, and the color it
    writes there is read from the source, not from the destination. *)
Hypothesis binterp_Rect : forall dst x y src sx sy,
  RGBA_Rect (binterpRGBA dst x y src sx sy) = RGBA_Rect dst.
Hypothesis binterp_frame : forall dst x y src sx sy x' y',
  (x', y') <> (x, y) ->
  RGBA_Pix (binterpRGBA dst x y src sx sy) x' y' = RGBA_Pix dst x' y'.
Hypothesis binterp_reads_src : forall dst dst' x y src sx sy,
  RGBA_Pix (binterpRGBA dst x y src sx sy) x y =
  RGBA_Pix (binterpRGBA dst' x y src sx sy) x y.

Lemma Transform_Bounds_kept
  (a : Affine) (dst src : option loc) (h h' : heap) (e : error) (l : loc) :
  Transform binterpRGBA a dst src h = Ok (e, h') -> Bounds (h' l) = Bounds (h l).
Proof.
  unfold Transform. intros HT.
  destruct dst as [d|]; [destruct src as [s|]|]; try (injection HT as _ <-; reflexivity).
  destruct (Nat.eq_dec l d) as [->|Hne].
  - destruct (h d) as [r|g] eqn:Hd; injection HT as _ <-; rewrite upd_same; simpl.
    + apply rows_Rect. exact binterp_Rect.
    + reflexivity.
  - destruct (h d); injection HT as _ <-; rewrite upd_other by exact Hne; reflexivity.
Qed.

(** X6: [Transform] never changes the bounds of an image: after a call
    that returns, every image of the store (the destination included) has
    the bounds it had before. *)
Theorem Transform_keeps_Bounds (a : Affine) (dst src : option loc) (h : heap) :
  exists e h',
    Transform binterpRGBA a dst src h = Ok (e, h') /\
    forall l, Bounds (h' l) = Bounds (h l).
Proof.
  destruct (Transform_returns a dst src h) as (e & h' & HT).
  exists e, h'. split; [exact HT|]. intros l.
  exact (Transform_Bounds_kept a dst src h h' e l HT).
Qed.

(** X8: what [Transform] writes when the destination is not an
    [*image.RGBA]: a pixel of its bounds whose point passes the bounds check
    is sampled into a zeroed scratch buffer of the destination's bounds and
    drawn back, so it holds the sampled color converted by the destination's
    color model.  The source may be the destination itself: it is read from
    a converted copy. *)
Theorem Transform_generic_writes_sampled_pixel
  (a : Affine) (d s : loc) (h : heap) (g : Generic) (x y : Z) :
  h d = IGeneric g ->
  inRect (Bounds (h d)) x y = true ->
  inBounds (Bounds (h s)) (fst (pt a x y)) (snd (pt a x y)) = true ->
  exists h',
    Transform binterpRGBA a (Some d) (Some s) h = Ok (None, h') /\
    At (h' d) x y =
    G_Convert g
      (RGBA_Pix (binterpRGBA (NewRGBA (Bounds (h d))) x y (sourceRGBA (h s))
                   (fst (pt a x y)) (snd (pt a x y))) x y).
Proof.
  intros Hd Hin Hsrc. unfold Transform.
  assert (Hbuf : match h s with
                 | IRGBA r0 => if Nat.eqb s d then SameAsDst else OwnBuffer r0
                 | IGeneric _ =>
                     OwnBuffer (draw_RGBA (NewRGBA (Bounds (h s))) (Bounds (h s)) (h s)
                                  (Min (Bounds (h s))))
                 end = OwnBuffer (sourceRGBA (h s))).
  { destruct (h s) as [rs|gs] eqn:Hs; [|reflexivity].
    destruct (Nat.eqb_spec s d) as [Heq|_]; [|reflexivity]. congruence. }
  rewrite Hbuf. rewrite Hd in *. simpl in Hin.
  eexists; split; [reflexivity|].
  rewrite upd_same. simpl. unfold drawn. simpl.
  rewrite (rows_Rect binterpRGBA binterp_Rect). simpl.
  replace (x + (X (Min (G_Bounds g)) - X (Min (G_Bounds g))))%Z with x by lia.
  replace (y + (Y (Min (G_Bounds g)) - Y (Min (G_Bounds g))))%Z with y by lia.
  rewrite Hin. simpl. f_equal.
  apply rows_sampled;
    [exact binterp_frame | exact Hsrc | intros st; apply binterp_reads_src | exact Hin].
Qed.

End Destination.

Lemma nearest_reads_src (dst dst' : RGBA) (x y : Z) (src : RGBA) (sx sy : float) :
  RGBA_Pix (nearestRGBA dst x y src sx sy) x y =
  RGBA_Pix (nearestRGBA dst' x y src sx sy) x y.
Proof. unfold nearestRGBA, setRGBA. simpl. rewrite !Z.eqb_refl. reflexivity. Qed.

Lemma Transform_empty_destination_witness :
  exists h',
    Transform nearestRGBA I (Some 0%nat) (Some 1%nat) hollow = Ok (None, h') /\
    Bounds (h' 0%nat) = Bounds (hollow 0%nat) /\
    forall x y, At (h' 0%nat) x y = At (hollow 0%nat) x y.
Proof.
  apply (Transform_empty_destination nearestRGBA I 0%nat 1%nat hollow).
  left. simpl. lia.
Defined.

Lemma Transform_keeps_Bounds_witness :
  exists e h',
    Transform nearestRGBA I (Some 0%nat) (Some 1%nat) demo = Ok (e, h') /\
    forall l, Bounds (h' l) = Bounds (demo l).
Proof.
  exact (Transform_keeps_Bounds nearestRGBA nearest_Rect I (Some 0%nat) (Some 1%nat) demo).
Defined.

Lemma Transform_generic_writes_sampled_pixel_witness :
  exists h',
    Transform nearestRGBA I (Some 2%nat) (Some 1%nat) demo = Ok (None, h') /\
    At (h' 2%nat) 1 0 =
    G_Convert (mkGeneric (Rect 0 0 4 4) (fun _ _ => sentinel) (fun c => c))
      (RGBA_Pix (nearestRGBA (NewRGBA (Bounds (demo 2%nat))) 1 0 (sourceRGBA (demo 1%nat))
                   (fst (pt I 1 0)) (snd (pt I 1 0))) 1 0).
Proof.
  apply (Transform_generic_writes_sampled_pixel
           nearestRGBA nearest_Rect nearest_frame nearest_reads_src
           I 2%nat 1%nat demo
           (mkGeneric (Rect 0 0 4 4) (fun _ _ => sentinel) (fun c => c)) 1 0).
  - reflexivity.
  - reflexivity.
  - vm_compute; reflexivity.
Defined.

(** * Exact sums and products in binary64 *)

Lemma shr_1_exact (p : positive) : shr_1 (exact_rec (Zpos p~0)) = exact_rec (Zpos p).
Proof. reflexivity. Qed.

Lemma pos_pow_xO (k : positive) : (2 ^ k~0 = 2 ^ k * 2 ^ k)%positive.
Proof.
  apply Pos2Z.inj. rewrite Pos2Z.inj_mul, !Pos2Z.inj_pow.
  rewrite <- Z.pow_add_r by lia. f_equal. lia.
Qed.

Lemma pos_pow_xI (k : positive) : (2 ^ k~1 = (2 ^ k * 2 ^ k)~0)%positive.
Proof.
  apply Pos2Z.inj. rewrite Pos2Z.inj_xO, Pos2Z.inj_mul, !Pos2Z.inj_pow.
  rewrite <- Z.pow_add_r by lia.
  replace (Zpos k~1) with (Z.succ (Zpos k + Zpos k)) by lia.
  rewrite Z.pow_succ_r by lia. reflexivity.
Qed.

(** Shifting out [k] zero digits loses nothing. *)
Lemma iter_shr_1_exact (k m : positive) :
  iter_pos shr_1 k (exact_rec (Zpos (m * 2 ^ k))) = exact_rec (Zpos m).
Proof.
  revert m. induction k as [k IH|k IH|]; intros m; cbn [iter_pos].
  - rewrite pos_pow_xI.
    replace (m * (2 ^ k * 2 ^ k)~0)%positive with ((m * 2 ^ k * 2 ^ k)~0)%positive by lia.
    rewrite shr_1_exact, !IH. reflexivity.
  - rewrite pos_pow_xO, Pos.mul_assoc, !IH. reflexivity.
  - replace (m * 2 ^ 1)%positive with (m~0)%positive by lia. apply shr_1_exact.
Qed.

Lemma digits2_pos_mul_pow (m k : positive) :
  Zpos (digits2_pos (m * 2 ^ k)) = Zpos (digits2_pos m) + Zpos k.
Proof.
  rewrite <- Pos2Z.inj_add, <- digits2_pos_shift. f_equal. f_equal.
  apply Pos2Z.inj. rewrite Zpos_shift, Pos2Z.inj_mul, Pos2Z.inj_pow. reflexivity.
Qed.

(** Rounding a mantissa that is a canonical one followed by [k] zero
    digits returns the canonical one. *)
Lemma binary_round_aux_exact (s : bool) (m : positive) (e : Z) (k : positive) :
  valid_binary (S754_finite s m e) = true ->
  binary_round_aux prec emax s (Zpos (m * 2 ^ k)) (e - Zpos k) loc_Exact = S754_finite s m e.
Proof.
  intros Hv.
  assert (Hc : fexp prec emax (Zpos (digits2_pos m) + e) = e /\ e <= 971).
  { unfold valid_binary, SpecFloat.valid_binary, bounded, canonical_mantissa in Hv.
    apply andb_prop in Hv as [H1 H2]. apply Z.eqb_eq in H1. apply Z.leb_le in H2.
    split; [exact H1 | exact H2]. }
  destruct Hc as [Hc He].
  unfold binary_round_aux, shr_fexp. simpl Zdigits2.
  rewrite digits2_pos_mul_pow.
  replace (Zpos (digits2_pos m) + Zpos k + (e - Zpos k)) with (Zpos (digits2_pos m) + e) by lia.
  rewrite Hc. replace (e - (e - Zpos k)) with (Zpos k) by lia.
  unfold shr. change (shr_record_of_loc (Zpos (m * 2 ^ k)) loc_Exact) with (exact_rec (Zpos (m * 2 ^ k))).
  rewrite iter_shr_1_exact. cbn [exact_rec shr_m loc_of_shr_record round_nearest_even].
  replace (e - Zpos k + Zpos k) with e by lia.
  simpl Zdigits2. rewrite Hc, Z.sub_diag. cbn [shr_record_of_loc shr_m].
  change (emax - prec) with 971.
  destruct (Z.leb_spec e 971); [reflexivity | lia].
Qed.

#[local] Open Scope float_scope.

(** Multiplying by one changes nothing, whatever the float. *)
Lemma mul_1_r (x : float) : x * 1 = x.
Proof.
  apply Prim2SF_inj. rewrite mul_spec, Prim2SF_1.
  pose proof (Prim2SF_valid x) as Hv.
  destruct (Prim2SF x) as [s|s| |s m e]; unfold SF64mul, SFmul.
  - now rewrite xorb_false_r.
  - now rewrite xorb_false_r.
  - reflexivity.
  - rewrite xorb_false_r.
    change 4503599627370496%positive with (2 ^ 52)%positive.
    change (e + -52)%Z with (e - 52)%Z.
    apply (binary_round_aux_exact s m e 52 Hv).
Qed.

Lemma mul_1_l (x : float) : 1 * x = x.
Proof.
  apply Prim2SF_inj. rewrite mul_spec, Prim2SF_1.
  pose proof (Prim2SF_valid x) as Hv.
  destruct (Prim2SF x) as [s|s| |s m e]; unfold SF64mul, SFmul; try reflexivity.
  cbn [xorb].
  change 4503599627370496%positive with (2 ^ 52)%positive.
  rewrite Pos.mul_comm, Z.add_comm.
  change (e + -52)%Z with (e - 52)%Z.
  apply (binary_round_aux_exact s m e 52 Hv).
Qed.

#[local] Close Scope float_scope.

Lemma valid_canonical (s : bool) (m : positive) (e : Z) :
  valid_binary (S754_finite s m e) = true ->
  fexp prec emax (Zpos (digits2_pos m) + e) = e /\ e <= 971.
Proof.
  unfold valid_binary, SpecFloat.valid_binary, bounded, canonical_mantissa. intros Hv.
  apply andb_prop in Hv as [H1 H2]. apply Z.eqb_eq in H1. apply Z.leb_le in H2.
  split; [exact H1 | exact H2].
Qed.

(** A canonical mantissa is not rounded. *)
Lemma binary_round_aux_valid (s : bool) (m : positive) (e : Z) :
  valid_binary (S754_finite s m e) = true ->
  binary_round_aux prec emax s (Zpos m) e loc_Exact = S754_finite s m e.
Proof.
  intros Hv. destruct (valid_canonical s m e Hv) as [Hc He].
  unfold binary_round_aux, shr_fexp, Zdigits2, shr_record_of_loc.
  rewrite Hc, Z.sub_diag. cbn [shr shr_m loc_of_shr_record round_nearest_even].
  unfold Zdigits2. rewrite Hc, Z.sub_diag. cbn [shr shr_m].
  change (emax - prec) with 971.
  destruct (Z.leb_spec e 971); [reflexivity | lia].
Qed.

Lemma Zpos_mul_pow (m k : positive) : Zpos (m * 2 ^ k) = Zpos m * 2 ^ Zpos k.
Proof. rewrite Pos2Z.inj_mul, Pos2Z.inj_pow. reflexivity. Qed.

(** Rounding returns the float whose value it is given, when there is one:
    [(m, e)] is any mantissa and exponent of the value of the valid float
    [(m', e')]. *)
Lemma binary_round_representable (s : bool) (m m' : positive) (e e' : Z) :
  valid_binary (S754_finite s m' e') = true ->
  -1074 <= e ->
  Zpos m * 2 ^ (e + 1074) = Zpos m' * 2 ^ (e' + 1074) ->
  binary_round prec emax s m e = S754_finite s m' e'.
Proof.
  intros Hv He Hval.
  destruct (valid_canonical s m' e' Hv) as [Hc He'].
  pose proof (valid_finite s m' e' Hv) as (He'r & _ & _).
  pose proof (pow2_pos (e + 1074) ltac:(lia)) as Hp.
  pose proof (pow2_pos (e' + 1074) ltac:(lia)) as Hp'.
  destruct (Z.compare_spec e e') as [Heq | Hlt | Hgt].
  - (* the same exponent *)
    subst e'. assert (m = m') as ->.
    { apply Pos2Z.inj. apply (Z.mul_cancel_r _ _ (2 ^ (e + 1074))); [lia | exact Hval]. }
    unfold binary_round, shl_align. rewrite Hc, Z.sub_diag.
    apply binary_round_aux_valid, Hv.
  - (* zero digits to shift out *)
    destruct (e' - e) as [|k|k] eqn:Ek; try lia.
    assert (Hm : m = (m' * 2 ^ k)%positive).
    { apply Pos2Z.inj. rewrite Zpos_mul_pow.
      replace (e' + 1074) with (Zpos k + (e + 1074)) in Hval by lia.
      rewrite (Z.pow_add_r 2 (Zpos k) (e + 1074)) in Hval by lia.
      apply (Z.mul_cancel_r _ _ (2 ^ (e + 1074))); [lia|]. rewrite Hval. ring. }
    subst m. replace e with (e' - Zpos k) by lia.
    unfold binary_round, shl_align.
    rewrite digits2_pos_mul_pow.
    replace (Zpos (digits2_pos m') + Zpos k + (e' - Zpos k)) with (Zpos (digits2_pos m') + e') by lia.
    rewrite Hc. replace (e' - (e' - Zpos k)) with (Zpos k) by lia.
    apply binary_round_aux_exact, Hv.
  - (* digits to add *)
    destruct (e - e') as [|k|k] eqn:Ek; try lia.
    assert (Hm : m' = Pos.iter xO m k).
    { apply Pos2Z.inj. rewrite Zpos_shift.
      replace (e + 1074) with (Zpos k + (e' + 1074)) in Hval by lia.
      rewrite (Z.pow_add_r 2 (Zpos k) (e' + 1074)) in Hval by lia.
      apply (Z.mul_cancel_r _ _ (2 ^ (e' + 1074))); [lia|]. rewrite <- Hval. ring. }
    unfold binary_round, shl_align.
    assert (Hd : Zpos (digits2_pos m) + e = Zpos (digits2_pos m') + e').
    { rewrite Hm, digits2_pos_shift, Pos2Z.inj_add. lia. }
    rewrite Hd, Hc. replace (e' - e) with (- Zpos k) by lia.
    change (- Zpos k) with (Zneg k). cbv iota beta.
    rewrite <- Hm. apply binary_round_aux_valid, Hv.
Qed.

(** The sum of two numbers is exact when a float has its value. *)
Lemma add_representable (x y : float) (sx sy s : bool) (mx my m : positive) (ex ey e : Z) :
  Prim2SF x = S754_finite sx mx ex ->
  Prim2SF y = S754_finite sy my ey ->
  valid_binary (S754_finite s m e) = true ->
  cond_Zopp sx (Zpos mx * 2 ^ (ex + 1074)) + cond_Zopp sy (Zpos my * 2 ^ (ey + 1074))
  = cond_Zopp s (Zpos m * 2 ^ (e + 1074)) ->
  Prim2SF (x + y)%float = S754_finite s m e.
Proof.
  intros Hx Hy Hv Hsum.
  pose proof (Prim2SF_valid x) as Vx. pose proof (Prim2SF_valid y) as Vy.
  rewrite Hx in Vx. rewrite Hy in Vy.
  apply valid_finite in Vx as (Ex & _ & _). apply valid_finite in Vy as (Ey & _ & _).
  pose proof (valid_finite s m e Hv) as (Ee & _ & _).
  rewrite add_spec, Hx, Hy. unfold SF64add, SFadd.
  set (ez := Z.min ex ey).
  rewrite (shl_align_fst mx ex ez), (shl_align_fst my ey ez) by (unfold ez; lia).
  assert (Hez : -1074 <= ez) by (unfold ez; lia).
  pose proof (pow2_pos (ez + 1074) ltac:(lia)) as Hpz.
  pose proof (pow2_pos (e + 1074) ltac:(lia)) as Hpe.
  assert (Hsplit : forall e0, ez <= e0 -> 2 ^ (e0 + 1074) = 2 ^ (e0 - ez) * 2 ^ (ez + 1074)).
  { intros e0 H0. rewrite <- Z.pow_add_r by lia. f_equal. lia. }
  rewrite (Hsplit ex), (Hsplit ey) in Hsum by (unfold ez; lia).
  set (ax := Zpos mx * 2 ^ (ex - ez)) in *. set (ay := Zpos my * 2 ^ (ey - ez)) in *.
  assert (HM : (cond_Zopp sx ax + cond_Zopp sy ay) * 2 ^ (ez + 1074)
               = cond_Zopp s (Zpos m * 2 ^ (e + 1074))).
  { rewrite <- Hsum. unfold ax, ay. destruct sx, sy; unfold cond_Zopp; ring. }
  destruct (cond_Zopp sx ax + cond_Zopp sy ay) as [|p|p] eqn:EM; unfold binary_normalize.
  - exfalso. destruct s; unfold cond_Zopp in HM; lia.
  - destruct s; unfold cond_Zopp in HM; [exfalso; lia|].
    apply binary_round_representable; [exact Hv | exact Hez | exact HM].
  - destruct s; unfold cond_Zopp in HM; [|exfalso; lia].
    apply binary_round_representable; [exact Hv | exact Hez | lia].
Qed.

(** Half of a non-zero integer below [2^53] is a float. *)
Lemma half_representable (n : Z) :
  n <> 0 -> - 2 ^ 53 < n < 2 ^ 53 ->
  exists s m e,
    valid_binary (S754_finite s m e) = true /\
    cond_Zopp s (Zpos m * 2 ^ (e + 1074)) = n * 2 ^ 1073.
Proof.
  intros Hn0 Hn.
  destruct (binary_normalize_small n Hn) as [Hs Hv].
  destruct (binary_normalize prec emax n 0 false) as [s|s| |s m e]; unfold scaled in Hs;
    try discriminate.
  - exfalso. assert (0 = n * 2 ^ 1074) by congruence. lia.
  - assert (Hkey : cond_Zopp s (Zpos m * 2 ^ (e + 1074)) = n * 2 ^ 1074) by congruence.
    pose proof (valid_finite s m e Hv) as (He & Hd & Hd53).
    pose proof (valid_canonical s m e Hv) as [Hc _].
    pose proof (digits2_pos_bounds m) as [_ Hm].
    assert (Hm53 : Zpos m < 2 ^ 53).
    { eapply Z.lt_le_trans; [exact Hm|]. apply pow2_le_mono; lia. }
    assert (Hlow : -1074 < e).
    { destruct (Z.eq_dec e (-1074)) as [->|]; [exfalso|lia].
      change (-1074 + 1074) with 0 in Hkey. rewrite Z.pow_0_r, Z.mul_1_r in Hkey.
      assert (2 ^ 1074 <= Z.abs n * 2 ^ 1074) by nia.
      assert (2 ^ 53 < 2 ^ 1074) by (apply pow2_lt_mono; lia).
      destruct s; unfold cond_Zopp in Hkey; nia. }
    exists s, m, (e - 1). split.
    + unfold valid_binary, SpecFloat.valid_binary, bounded, canonical_mantissa.
      rewrite fexp_eq in *. rewrite (Hd53 Hlow) in *.
      apply andb_true_intro; split; [apply Z.eqb_eq | apply Z.leb_le];
        change (emax - prec) with 971; lia.
    + replace (e + 1074) with (Z.succ (e - 1 + 1074)) in Hkey by lia.
      rewrite Z.pow_succ_r in Hkey by lia.
      change (2 ^ 1074) with (2 * 2 ^ 1073) in Hkey.
      destruct s; unfold cond_Zopp in *; lia.
Qed.

Lemma Prim2SF_half : Prim2SF 0.5%float = S754_finite false 4503599627370496 (-53).
Proof. vm_compute; reflexivity. Qed.

(** [float64(n) + 0.5] is the number [n + 1/2], for [n] of at most 52 bits. *)
Lemma center_exact (n : Z) :
  - 2 ^ 52 <= n < 2 ^ 52 ->
  exists s m e,
    Prim2SF (float64_of_int n + 0.5)%float = S754_finite s m e /\
    cond_Zopp s (Zpos m * 2 ^ (e + 1074)) = (2 * n + 1) * 2 ^ 1073.
Proof.
  intros Hn.
  destruct (Z.eq_dec n 0) as [->|Hn0].
  { exists false, 4503599627370496%positive, (-53).
    split; vm_compute; reflexivity. }
  destruct (half_representable (2 * n + 1)) as (s & m & e & Hv & Hkey); [lia | lia |].
  exists s, m, e. split; [|exact Hkey].
  pose proof (float64_of_int_exact n ltac:(unfold representable; lia)) as Hx.
  unfold exact_int in Hx.
  destruct (Prim2SF (float64_of_int n)) as [sx|sx| |sx mx ex] eqn:Ex; unfold scaled in Hx;
    try discriminate.
  - exfalso. assert (0 = n * 2 ^ 1074) by congruence. lia.
  - assert (Hkx : cond_Zopp sx (Zpos mx * 2 ^ (ex + 1074)) = n * 2 ^ 1074) by congruence.
    apply (add_representable _ _ sx false s mx 4503599627370496 m ex (-53) e Ex Prim2SF_half Hv).
    rewrite Hkx, Hkey. unfold cond_Zopp.
    change (-53 + 1074) with 1021.
    change (Zpos 4503599627370496) with (2 ^ 52).
    rewrite <- Z.pow_add_r by lia. change (52 + 1021) with 1073.
    change (2 ^ 1074) with (2 * 2 ^ 1073). ring.
Qed.

#[local] Open Scope float_scope.

Lemma add_number_zeroish (x z : float) : number x -> zeroish z -> x + z = x.
Proof.
  intros (s & m & e & Hx) [t Hz]. apply Prim2SF_inj.
  rewrite add_spec, Hx, Hz. reflexivity.
Qed.

Lemma add_zeroish_number (z x : float) : zeroish z -> number x -> z + x = x.
Proof.
  intros [t Hz] (s & m & e & Hx). apply Prim2SF_inj.
  rewrite add_spec, Hx, Hz. reflexivity.
Qed.

Lemma mul_number_0 (x : float) : number x -> zeroish (x * 0).
Proof.
  intros (s & m & e & Hx). unfold zeroish.
  rewrite mul_spec, Hx, Prim2SF_0. simpl. eauto.
Qed.

Lemma center_number (n : Z) : pixel_coord n -> number (float64_of_int n + 0.5).
Proof. intros Hn. destruct (center_exact n Hn) as (s & m & e & H & _). exists s, m, e. exact H. Qed.

Lemma center_scaled (n : Z) :
  pixel_coord n ->
  scaled (Prim2SF (float64_of_int n + 0.5)) = Some ((2 * n + 1) * 2 ^ 1073)%Z.
Proof.
  intros Hn. destruct (center_exact n Hn) as (s & m & e & H & Hk).
  rewrite H. unfold scaled. now rewrite Hk.
Qed.

#[local] Close Scope float_scope.

Lemma axis_center (n lo hi : Z) :
  representable lo -> representable hi -> pixel_coord n ->
  ((float64_of_int n + 0.5 <? float64_of_int lo)%float
   || geb (float64_of_int n + 0.5)%float (float64_of_int hi)) =
  negb ((lo <=? n) && (n <? hi)).
Proof.
  intros Hlo Hhi Hn.
  assert (Nn : isNaN (float64_of_int n + 0.5)%float = false).
  { unfold isNaN. destruct (center_number n Hn) as (s & m & e & ->). reflexivity. }
  pose proof (axis_check _ lo hi (float64_of_int_exact lo Hlo) (float64_of_int_exact hi Hhi) Nn)
    as Hax.
  rewrite (center_scaled n Hn) in Hax.
  destruct ((lo <=? n) && (n <? hi)) eqn:Ein; simpl.
  - apply andb_prop in Ein as [H1 H2]. apply Z.leb_le in H1. apply Z.ltb_lt in H2.
    destruct (_ || _) eqn:Ec; [|reflexivity].
    assert (Hf : true = false); [|discriminate Hf].
    apply Hax. eexists; split; [reflexivity|].
    change (2 ^ 1074) with (2 * 2 ^ 1073). lia.
  - destruct (_ || _) eqn:Ec; [reflexivity|].
    destruct (proj1 Hax eq_refl) as (k & Hk & H1 & H2).
    assert (k = (2 * n + 1) * 2 ^ 1073) as -> by congruence.
    change (2 ^ 1074) with (2 * 2 ^ 1073) in H1, H2.
    assert (lo <= n < hi) by lia.
    assert (Ht : (lo <=? n) && (n <? hi) = true).
    { apply andb_true_intro; split; [apply Z.leb_le | apply Z.ltb_lt]; lia. }
    congruence.
Qed.

#[local] Open Scope float_scope.

Lemma mul_finite_zeroish (f z : float) :
  finite f = true -> zeroish z -> zeroish (f * z).
Proof.
  intros Hf [s Hz]. unfold zeroish, finite in *.
  rewrite mul_spec, Hz. unfold SF64mul, SFmul.
  destruct (Prim2SF f); try discriminate; eauto.
Qed.

Lemma same_number_refl (x : float) : finite x = true -> same_number x x.
Proof. intros H. split; [exact H | left; reflexivity]. Qed.

Lemma same_number_add_r (w x z : float) :
  same_number w x -> zeroish z -> same_number (w + z) x.
Proof.
  intros [Hf Hw] Hz. split; [exact Hf|].
  destruct Hw as [-> | [Hw Hx]].
  - unfold finite in Hf. destruct (Prim2SF x) as [s|s| |s m e] eqn:Ex; try discriminate.
    + right. split; [apply add_zeroish; [exists s; exact Ex | exact Hz] | exists s; exact Ex].
    + left. destruct Hz as [t Hz]. apply Prim2SF_inj. rewrite add_spec, Ex, Hz. reflexivity.
  - right. split; [apply add_zeroish; assumption | exact Hx].
Qed.

Lemma same_number_add_l (z x : float) :
  zeroish z -> finite x = true -> same_number (z + x) x.
Proof.
  intros Hz Hf. split; [exact Hf|].
  unfold finite in Hf. destruct (Prim2SF x) as [s|s| |s m e] eqn:Ex; try discriminate.
  - right. split; [apply add_zeroish; [exact Hz | exists s; exact Ex] | exists s; exact Ex].
  - left. destruct Hz as [t Hz]. apply Prim2SF_inj. rewrite add_spec, Ex, Hz. reflexivity.
Qed.

(** Numbers that differ at most by the sign of a zero are [==]. *)
Lemma same_number_eqb (x y : float) : same_number x y -> (x =? y) = true.
Proof.
  intros [Hf [-> | [[s Hx] [t Hy]]]]; rewrite FloatAxioms.eqb_spec.
  - unfold SFeqb. rewrite SFcompare_key; try apply Prim2SF_valid.
    + now rewrite Z.compare_refl.
    + unfold finite in Hf. destruct (Prim2SF y); congruence.
    + unfold finite in Hf. destruct (Prim2SF y); congruence.
  - rewrite Hx, Hy. reflexivity.
Qed.

(** * The identity matrix and the neutral arguments *)

(** A product with a zero factor and a finite one is a zero. *)
Ltac zero_product :=
  first [ apply mul_finite_zeroish; assumption | apply mul_zeroish_finite; assumption ].

(** An entry of the product by a neutral matrix: one term is the entry of
    the other factor, the two others are zeroes. *)
Ltac neutral_entry :=
  rewrite ?mul_1_r, ?mul_1_l;
  first
    [ apply same_number_add_r;
      [ apply same_number_add_r; [ apply same_number_refl; assumption | zero_product ]
      | zero_product ]
    | apply same_number_add_r;
      [ apply same_number_add_l; [ zero_product | assumption ]
      | zero_product ]
    | apply same_number_add_l; [ apply add_zeroish; zero_product | assumption ] ].

Lemma Mul_neutral_r (a u : Affine) :
  all_finite a -> neutral u -> affine_eqb (Mul a u) a = true.
Proof.
  intros ((F0 & F1 & F2 & F3 & F4 & F5) & F6 & F7 & F8)
         (U0 & U1 & U2 & U3 & U4 & U5 & U6 & U7 & U8).
  unfold affine_eqb, Mul; cbn [el0 el1 el2 el3 el4 el5 el6 el7 el8].
  rewrite U0, U4, U8.
  repeat (apply andb_true_intro; split); apply same_number_eqb; neutral_entry.
Qed.

Lemma Mul_neutral_l (a u : Affine) :
  all_finite a -> neutral u -> affine_eqb (Mul u a) a = true.
Proof.
  intros ((F0 & F1 & F2 & F3 & F4 & F5) & F6 & F7 & F8)
         (U0 & U1 & U2 & U3 & U4 & U5 & U6 & U7 & U8).
  unfold affine_eqb, Mul; cbn [el0 el1 el2 el3 el4 el5 el6 el7 el8].
  rewrite U0, U4, U8.
  repeat (apply andb_true_intro; split); apply same_number_eqb; neutral_entry.
Qed.

Lemma neutral_I : neutral I.
Proof. unfold neutral, I; cbn. repeat split; apply zeroish_0. Qed.

Lemma zeroish_neg_0 : zeroish (- 0).
Proof. exists true. reflexivity. Qed.

(** X10: the identity matrix is neutral for [Mul] on both sides: for a
    matrix [a] of nine finite entries, [a.Mul(I) == a] and [I.Mul(a) == a]
    hold in Go (entry by entry; an entry that is a zero may change its
    sign, which [==] does not see). *)
Theorem Mul_identity (a : Affine) :
  all_finite a -> affine_eqb (Mul a I) a = true /\ affine_eqb (Mul I a) a = true.
Proof.
  intros Ha. split.
  - apply Mul_neutral_r; [exact Ha | exact neutral_I].
  - apply Mul_neutral_l; [exact Ha | exact neutral_I].
Qed.

(** X11: the neutral arguments of the builders: for a matrix [a] of nine
    finite entries, [a.Scale(1, 1)], [a.Translate(0, 0)], [a.Shear(0, 0)] and
    [a.Rotate(angle)] for an angle of sine [0] and cosine [1] are all [==]
    to [a]. *)
Theorem builders_neutral (Sincos : float -> float * float) (a : Affine) (angle : float) :
  all_finite a -> Sincos angle = (0, 1) ->
  affine_eqb (Scale a 1 1) a = true /\
  affine_eqb (Translate a 0 0) a = true /\
  affine_eqb (Shear a 0 0) a = true /\
  affine_eqb (Rotate Sincos a angle) a = true.
Proof.
  intros Ha Hsc.
  repeat match goal with |- _ /\ _ => split end.
  - apply Mul_neutral_r; [exact Ha|]. exact neutral_I.
  - apply Mul_neutral_r; [exact Ha|].
    unfold neutral; cbn. repeat split; first [apply zeroish_0 | apply zeroish_neg_0].
  - apply Mul_neutral_r; [exact Ha|].
    unfold neutral; cbn. repeat split; first [apply zeroish_0 | apply zeroish_neg_0].
  - unfold Rotate. rewrite Hsc. apply Mul_neutral_r; [exact Ha|].
    unfold neutral; cbn. repeat split; first [apply zeroish_0 | apply zeroish_neg_0].
Qed.

(** A number and its opposite add up to [+0]. *)
Lemma add_opp_l (x : float) : finite x = true -> zeroish (- x + x).
Proof.
  intros Hf. unfold zeroish, finite in *.
  rewrite add_spec, opp_spec.
  pose proof (Prim2SF_valid x) as Hv.
  destruct (Prim2SF x) as [s|s| |s m e]; try discriminate.
  - destruct s; simpl; eauto.
  - unfold SF64add, SFadd, SFopp. rewrite Z.min_id.
    unfold shl_align. rewrite Z.sub_diag. cbn [fst].
    exists false. destruct s; unfold cond_Zopp; cbn [negb].
    + replace (Zpos m + - Zpos m)%Z with 0%Z by lia. reflexivity.
    + replace (- Zpos m + Zpos m)%Z with 0%Z by lia. reflexivity.
Qed.

Lemma opp_opp (x : float) : - - x = x.
Proof.
  apply Prim2SF_inj. rewrite !opp_spec.
  destruct (Prim2SF x) as [s|s| |s m e]; simpl; rewrite ?negb_involutive; reflexivity.
Qed.

Lemma number_1 : number 1.
Proof. exists false, 4503599627370496%positive, (-52)%Z. exact Prim2SF_1. Qed.

Lemma add_0_zeroish (z : float) : zeroish z -> 0 + z = 0.
Proof.
  intros [s Hz]. apply Prim2SF_inj. rewrite add_spec, Hz, Prim2SF_0. destruct s; reflexivity.
Qed.

Lemma same_number_finite (x y : float) : same_number x y -> finite x = true.
Proof.
  intros [Hf [-> | [[s Hx] _]]]; [exact Hf|]. unfold finite. now rewrite Hx.
Qed.

Lemma same_number_trans_add_l (z w x : float) :
  zeroish z -> same_number w x -> same_number (z + w) x.
Proof.
  intros Hz Hw. pose proof (same_number_finite _ _ Hw) as Hfw.
  destruct (same_number_add_l z w Hz Hfw) as [_ [Heq | [H1 H2]]].
  - rewrite Heq. exact Hw.
  - destruct Hw as [Hf [-> | [_ Hx]]]; split; try exact Hf; right; split; assumption.
Qed.

(** The entries of [I.Translate(tx, ty)]. *)
Lemma Translate_I_entries (tx ty : float) :
  finite tx = true -> finite ty = true ->
  el0 (Translate I tx ty) = 1 /\ el1 (Translate I tx ty) = 0 /\
  same_number (el2 (Translate I tx ty)) (- tx) /\
  el3 (Translate I tx ty) = 0 /\ el4 (Translate I tx ty) = 1 /\
  same_number (el5 (Translate I tx ty)) (- ty) /\
  el6 (Translate I tx ty) = 0 /\ el7 (Translate I tx ty) = 0 /\
  el8 (Translate I tx ty) = 1.
Proof.
  intros Hx Hy.
  assert (Hnx : finite (- tx) = true) by now rewrite finite_opp.
  assert (Hny : finite (- ty) = true) by now rewrite finite_opp.
  unfold Translate, Mul, I; cbn [el0 el1 el2 el3 el4 el5 el6 el7 el8].
  repeat match goal with |- _ /\ _ => split end; try reflexivity.
  - rewrite mul_1_l. change (0 * 1) with 0.
    apply same_number_add_r; [|apply zeroish_0].
    apply same_number_add_r; [apply same_number_refl, Hnx|].
    apply mul_zeroish_finite; [apply zeroish_0 | exact Hny].
  - rewrite mul_1_l. change (0 * 1) with 0.
    apply same_number_add_r; [|apply zeroish_0].
    apply same_number_add_l; [|exact Hny].
    apply mul_zeroish_finite; [apply zeroish_0 | exact Hnx].
  - change (1 * 1) with 1. apply add_zeroish_1, add_zeroish;
      apply mul_zeroish_finite; auto using zeroish_0.
Qed.

(** X12: [I.Translate(dx, dy)] samples the source [(dx, dy)] before the
    center of the pixel: for finite [dx], [dy] and pixel coordinates of at
    most 52 bits, [pt] returns exactly
    [(float64(x0) + 0.5 + -dx, float64(y0) + 0.5 + -dy)], so the picture
    moves by [(+dx, +dy)]. *)
Theorem pt_Translate_identity (dx dy : float) (x0 y0 : Z) :
  finite dx = true -> finite dy = true -> pixel_coord x0 -> pixel_coord y0 ->
  pt (Translate I dx dy) x0 y0 =
  (float64_of_int x0 + 0.5 + - dx, float64_of_int y0 + 0.5 + - dy).
Proof.
  intros Hdx Hdy Hx Hy. apply center_number in Hx, Hy.
  destruct (Translate_I_entries dx dy Hdx Hdy)
    as (E0 & E1 & E2 & E3 & E4 & E5 & _).
  unfold pt. rewrite E0, E1, E3, E4, !mul_1_r.
  rewrite (add_number_zeroish _ _ Hx (mul_number_0 _ Hy)).
  rewrite (add_zeroish_number _ _ (mul_number_0 _ Hx) Hy).
  f_equal.
  - destruct E2 as [_ [-> | [Hz Hz']]]; [reflexivity|].
    rewrite (add_number_zeroish _ _ Hx Hz), (add_number_zeroish _ _ Hx Hz'). reflexivity.
  - destruct E5 as [_ [-> | [Hz Hz']]]; [reflexivity|].
    rewrite (add_number_zeroish _ _ Hy Hz), (add_number_zeroish _ _ Hy Hz'). reflexivity.
Qed.

Lemma Translate_I_translation (tx ty : float) :
  finite tx = true -> finite ty = true -> translation (Translate I tx ty) (- tx) (- ty).
Proof. intros Hx Hy. exact (Translate_I_entries tx ty Hx Hy). Qed.

Lemma Mul_I_translation (u : Affine) (tx ty : float) :
  translation u tx ty -> translation (Mul u I) tx ty.
Proof.
  intros (E0 & E1 & E2 & E3 & E4 & E5 & E6 & E7 & E8).
  pose proof (same_number_finite _ _ E2) as F2.
  pose proof (same_number_finite _ _ E5) as F5.
  assert (Z2 : zeroish (el2 u * 0)) by (apply mul_finite_zeroish; [exact F2 | apply zeroish_0]).
  assert (Z5 : zeroish (el5 u * 0)) by (apply mul_finite_zeroish; [exact F5 | apply zeroish_0]).
  unfold translation, Mul, I; cbn [el0 el1 el2 el3 el4 el5 el6 el7 el8].
  rewrite E0, E1, E3, E4, E6, E7, E8, !mul_1_r.
  repeat match goal with |- _ /\ _ => split end; try reflexivity.
  - change (1 * 1 + 0 * 0) with 1. apply add_number_zeroish; [apply number_1 | exact Z2].
  - change (1 * 0 + 0) with 0. apply add_0_zeroish, Z2.
  - change (1 * 0 + 0 * 0) with 0. apply same_number_trans_add_l; [apply zeroish_0 | exact E2].
  - change (0 * 1 + 1 * 0) with 0. apply add_0_zeroish, Z5.
  - change (0 * 0 + 1) with 1. apply add_number_zeroish; [apply number_1 | exact Z5].
  - change (0 * 0 + 1 * 0) with 0. apply same_number_trans_add_l; [apply zeroish_0 | exact E5].
Qed.

Lemma add_opp_same (z w x : float) :
  zeroish z -> same_number w x -> zeroish (- x + z + w).
Proof.
  intros Hz [Hf Hw].
  unfold finite in Hf. destruct (Prim2SF x) as [s|s| |s m e] eqn:Ex; try discriminate.
  - assert (Zx : zeroish x) by (exists s; exact Ex).
    assert (Znx : zeroish (- x)).
    { exists (negb s). rewrite opp_spec, Ex. reflexivity. }
    assert (Zw : zeroish w) by (destruct Hw as [-> | [Hw _]]; assumption).
    apply add_zeroish; [apply add_zeroish|]; assumption.
  - assert (Nnx : number (- x)).
    { exists (negb s), m, e. rewrite opp_spec, Ex. reflexivity. }
    rewrite (add_number_zeroish _ _ Nnx Hz).
    destruct Hw as [-> | [_ [t Ht]]]; [|congruence].
    apply add_opp_l. unfold finite. now rewrite Ex.
Qed.

Lemma add_opp_same' (z w x : float) :
  zeroish z -> same_number w x -> zeroish (z + - x + w).
Proof.
  intros Hz [Hf Hw].
  unfold finite in Hf. destruct (Prim2SF x) as [s|s| |s m e] eqn:Ex; try discriminate.
  - assert (Zx : zeroish x) by (exists s; exact Ex).
    assert (Znx : zeroish (- x)).
    { exists (negb s). rewrite opp_spec, Ex. reflexivity. }
    assert (Zw : zeroish w) by (destruct Hw as [-> | [Hw _]]; assumption).
    apply add_zeroish; [apply add_zeroish|]; assumption.
  - assert (Nnx : number (- x)).
    { exists (negb s), m, e. rewrite opp_spec, Ex. reflexivity. }
    rewrite (add_zeroish_number _ _ Hz Nnx).
    destruct Hw as [-> | [_ [t Ht]]]; [|congruence].
    apply add_opp_l. unfold finite. now rewrite Ex.
Qed.

(** Translating a translation back gives the identity, up to the sign of
    a zero. *)
Lemma Translate_back (u : Affine) (x y : float) :
  translation u x y -> neutral (Translate u x y).
Proof.
  intros (E0 & E1 & E2 & E3 & E4 & E5 & E6 & E7 & E8).
  pose proof (same_number_finite _ _ E2) as F2.
  pose proof (same_number_finite _ _ E5) as F5.
  assert (Fx : finite (- x) = true) by (rewrite finite_opp; apply E2).
  assert (Fy : finite (- y) = true) by (rewrite finite_opp; apply E5).
  assert (Z2 : zeroish (el2 u * 0)) by (apply mul_finite_zeroish; [exact F2 | apply zeroish_0]).
  assert (Z5 : zeroish (el5 u * 0)) by (apply mul_finite_zeroish; [exact F5 | apply zeroish_0]).
  unfold neutral, Translate, Mul; cbn [el0 el1 el2 el3 el4 el5 el6 el7 el8].
  rewrite E0, E1, E3, E4, E6, E7, E8, !mul_1_r, !mul_1_l.
  repeat match goal with |- _ /\ _ => split end.
  - change (1 * 1 + 0 * 0) with 1. apply add_number_zeroish; [apply number_1 | exact Z2].
  - change (1 * 0 + 0) with 0. apply add_zeroish; [apply zeroish_0 | exact Z2].
  - apply add_opp_same; [|exact E2].
    apply mul_zeroish_finite; [apply zeroish_0 | exact Fy].
  - change (0 * 1 + 1 * 0) with 0. apply add_zeroish; [apply zeroish_0 | exact Z5].
  - change (0 * 0 + 1) with 1. apply add_number_zeroish; [apply number_1 | exact Z5].
  - apply add_opp_same'; [|exact E5].
    apply mul_zeroish_finite; [apply zeroish_0 | exact Fx].
  - change (0 * 1 + 0 * 0 + 1 * 0) with 0. apply zeroish_0.
  - change (0 * 0 + 0 * 1 + 1 * 0) with 0. apply zeroish_0.
  - change (1 * 1) with 1. apply add_zeroish_1, add_zeroish;
      apply mul_zeroish_finite; auto using zeroish_0.
Qed.

Lemma zeroish_eqb_0 (z : float) : zeroish z -> (z =? 0) = true.
Proof. intros [s Hz]. rewrite FloatAxioms.eqb_spec, Hz. reflexivity. Qed.

Lemma neutral_eqb_I (u : Affine) : neutral u -> affine_eqb u I = true.
Proof.
  intros (U0 & U1 & U2 & U3 & U4 & U5 & U6 & U7 & U8).
  unfold affine_eqb, I; cbn [el0 el1 el2 el3 el4 el5 el6 el7 el8].
  rewrite U0, U4, U8.
  rewrite !zeroish_eqb_0 by assumption. reflexivity.
Qed.

Lemma Center_I_neutral (x y : float) :
  finite x = true -> finite y = true -> neutral (Center I x y).
Proof.
  intros Hx Hy. unfold Center. apply Translate_back, Mul_I_translation.
  pose proof (Translate_I_translation (- x) (- y)) as HT.
  rewrite !finite_opp, !opp_opp in HT. apply HT; assumption.
Qed.

(** Under a neutral matrix the sampled point is the center of the pixel. *)
Lemma pt_neutral (u : Affine) (x0 y0 : Z) :
  neutral u -> pixel_coord x0 -> pixel_coord y0 ->
  pt u x0 y0 = (float64_of_int x0 + 0.5, float64_of_int y0 + 0.5).
Proof.
  intros (U0 & U1 & U2 & U3 & U4 & U5 & _) Hx Hy.
  pose proof (center_number x0 Hx) as Nx. pose proof (center_number y0 Hy) as Ny.
  assert (Fx : finite (float64_of_int x0 + 0.5) = true).
  { destruct Nx as (s & m & e & H). unfold finite. now rewrite H. }
  assert (Fy : finite (float64_of_int y0 + 0.5) = true).
  { destruct Ny as (s & m & e & H). unfold finite. now rewrite H. }
  unfold pt. rewrite U0, U4, !mul_1_r.
  rewrite (add_number_zeroish _ _ Nx (mul_finite_zeroish _ _ Fy U1)).
  rewrite (add_number_zeroish _ _ Nx U2).
  rewrite (add_zeroish_number _ _ (mul_finite_zeroish _ _ Fx U3) Ny).
  rewrite (add_number_zeroish _ _ Ny U5).
  reflexivity.
Qed.

#[local] Close Scope float_scope.

Lemma representable_is_int (c : Z) : representable c -> is_int c.
Proof. unfold representable, is_int. lia. Qed.

Lemma representable_int_rect (b : Rectangle) : representable_rect b -> int_rect b.
Proof. intros (B1 & B2 & B3 & B4). repeat split; apply representable_is_int; assumption. Qed.

Lemma CenterFit_I_neutral (b : Rectangle) : int_rect b -> neutral (CenterFit I b b).
Proof.
  intros (B1 & _ & B3 & _).
  change (CenterFit I b b) with
    (Center I (float64_of_int (X (Min b)) + float64_of_int (Dx b) / 2)%float
              (float64_of_int (Y (Min b)) + float64_of_int (Dy b) / 2)%float).
  apply Center_I_neutral; apply center_coord_finite; try assumption; apply wrap64_is_int.
Qed.

(** X13: centering the identity on a point gives the identity back: for
    finite [x] and [y], [I.Center(x, y) == I] holds in Go (the translation to
    the point and the translation back cancel exactly). *)
Theorem Center_identity (x y : float) :
  finite x = true -> finite y = true -> affine_eqb (Center I x y) I = true.
Proof. intros Hx Hy. apply neutral_eqb_I, Center_I_neutral; assumption. Qed.

(** X14: fitting a rectangle onto itself changes nothing:
    [I.CenterFit(r, r) == I] holds in Go for every rectangle of 64-bit
    ints. *)
Theorem CenterFit_identity_same_rectangle (r : Rectangle) :
  int_rect r -> affine_eqb (CenterFit I r r) I = true.
Proof. intros Hr. apply neutral_eqb_I, CenterFit_I_neutral, Hr. Qed.

(** The value of [float64(n) + 0.5]. *)
Lemma center_real (n : Z) :
  pixel_coord n ->
  exists q, real_of_float (float64_of_int n + 0.5)%float = Some q /\
            (q == inject_Z n + (1 # 2))%Q.
Proof.
  intros Hn. unfold real_of_float. rewrite (center_scaled n Hn).
  eexists; split; [reflexivity|].
  unfold Qeq, Qplus, inject_Z; cbn [Qnum Qden].
  rewrite Zpos_denom1074. change (Zpos (1 * 2)) with 2.
  change (2 ^ 1074) with (2 * 2 ^ 1073). ring.
Qed.

(** X15: under the identity matrix the point sampled for the pixel
    [(x0, y0)] is the center of the pixel: [pt] returns
    [(float64(x0) + 0.5, float64(y0) + 0.5)], two floats whose values are the
    rationals [x0 + 1/2] and [y0 + 1/2] with no rounding, for coordinates of
    at most 52 bits. *)
Theorem pt_identity_is_pixel_center (x0 y0 : Z) :
  pixel_coord x0 -> pixel_coord y0 ->
  pt I x0 y0 = ((float64_of_int x0 + 0.5)%float, (float64_of_int y0 + 0.5)%float) /\
  exists qx qy,
    real_of_float (float64_of_int x0 + 0.5)%float = Some qx /\
    real_of_float (float64_of_int y0 + 0.5)%float = Some qy /\
    (qx == inject_Z x0 + (1 # 2))%Q /\ (qy == inject_Z y0 + (1 # 2))%Q.
Proof.
  intros Hx Hy. split; [exact (pt_neutral I x0 y0 neutral_I Hx Hy)|].
  destruct (center_real x0 Hx) as (qx & Ex & Hqx).
  destruct (center_real y0 Hy) as (qy & Ey & Hqy).
  exists qx, qy. repeat split; assumption.
Qed.

Lemma inBounds_pt_neutral (u : Affine) (b : Rectangle) (x0 y0 : Z) :
  neutral u -> representable_rect b -> pixel_coord x0 -> pixel_coord y0 ->
  inBounds b (fst (pt u x0 y0)) (snd (pt u x0 y0)) = inRect b x0 y0.
Proof.
  intros Hu (B1 & B2 & B3 & B4) Hx Hy.
  rewrite (pt_neutral u x0 y0 Hu Hx Hy). cbn [fst snd].
  unfold inBounds, inRect.
  rewrite (axis_center x0 _ _ B1 B2 Hx), (axis_center y0 _ _ B3 B4 Hy).
  destruct ((X (Min b) <=? x0) && (x0 <? X (Max b))); simpl; [|reflexivity].
  destruct (Y (Min b) <=? y0), (y0 <? Y (Max b)); reflexivity.
Qed.

(** X16: under the identity matrix the bounds check is membership of the
    pixel: for source bounds that float64 holds exactly and pixel coordinates
    of at most 52 bits, [inBounds(b, pt(x0, y0))] is true exactly when
    [(x0, y0)] is a pixel of [b]. *)
Theorem inBounds_pt_identity (b : Rectangle) (x0 y0 : Z) :
  representable_rect b -> pixel_coord x0 -> pixel_coord y0 ->
  inBounds b (fst (pt I x0 y0)) (snd (pt I x0 y0)) = inRect b x0 y0.
Proof. intros Hb Hx Hy. exact (inBounds_pt_neutral I b x0 y0 neutral_I Hb Hx Hy). Qed.

Lemma exact_int_not_NaN (c : Z) : exact_int c -> isNaN (float64_of_int c) = false.
Proof.
  unfold exact_int, isNaN. destruct (Prim2SF (float64_of_int c)); simpl; congruence.
Qed.

Lemma axis_integer (n lo hi : Z) :
  representable lo -> representable hi -> representable n ->
  ((float64_of_int n <? float64_of_int lo)%float
   || geb (float64_of_int n) (float64_of_int hi)) =
  negb ((lo <=? n) && (n <? hi)).
Proof.
  intros Hlo Hhi Hn.
  pose proof (float64_of_int_exact n Hn) as En.
  pose proof (axis_check _ lo hi (float64_of_int_exact lo Hlo) (float64_of_int_exact hi Hhi)
                (exact_int_not_NaN n En)) as Hax.
  unfold exact_int in En. rewrite En in Hax.
  pose proof (pow2_pos 1074 ltac:(lia)) as Hp.
  destruct ((lo <=? n) && (n <? hi)) eqn:Ein; simpl.
  - apply andb_prop in Ein as [H1 H2]. apply Z.leb_le in H1. apply Z.ltb_lt in H2.
    destruct (_ || _) eqn:Ec; [|reflexivity].
    assert (Hf : true = false); [|discriminate Hf].
    apply Hax. eexists; split; [reflexivity|]. nia.
  - destruct (_ || _) eqn:Ec; [reflexivity|].
    destruct (proj1 Hax eq_refl) as (k & Hk & H1 & H2).
    assert (k = n * 2 ^ 1074) as -> by congruence.
    assert (lo <= n < hi) by nia.
    assert (Ht : (lo <=? n) && (n <? hi) = true).
    { apply andb_true_intro; split; [apply Z.leb_le | apply Z.ltb_lt]; lia. }
    congruence.
Qed.

(** X17: on points of integer coordinates [inBounds] is membership in the
    rectangle, [Min] included and [Max] excluded, for bounds and
    coordinates that float64 holds exactly (at most [2^53] in absolute
    value). *)
Theorem inBounds_at_integers (b : Rectangle) (x y : Z) :
  representable_rect b -> representable x -> representable y ->
  inBounds b (float64_of_int x) (float64_of_int y) = inRect b x y.
Proof.
  intros (B1 & B2 & B3 & B4) Hx Hy. unfold inBounds, inRect.
  rewrite (axis_integer x _ _ B1 B2 Hx), (axis_integer y _ _ B3 B4 Hy).
  destruct ((X (Min b) <=? x) && (x <? X (Max b))); simpl; [|reflexivity].
  destruct (Y (Min b) <=? y), (y <? Y (Max b)); reflexivity.
Qed.

Lemma axis_empty (x : float) (lo hi : Z) :
  representable lo -> representable hi -> isNaN x = false -> hi <= lo ->
  ((x <? float64_of_int lo)%float || geb x (float64_of_int hi)) = true.
Proof.
  intros Hlo Hhi Nx Hle.
  pose proof (axis_check x lo hi (float64_of_int_exact lo Hlo) (float64_of_int_exact hi Hhi) Nx)
    as Hax.
  pose proof (pow2_pos 1074 ltac:(lia)) as Hp.
  destruct (_ || _); [reflexivity|].
  destruct (proj1 Hax eq_refl) as (k & _ & H1 & H2). nia.
Qed.

(** X18: a rectangle with no pixel ([Max.X <= Min.X] or [Max.Y <= Min.Y])
    contains no point: [inBounds] is false for every pair of floats that are
    not NaN (bounds that float64 holds exactly). *)
Theorem inBounds_empty_rectangle (b : Rectangle) (x y : float) :
  representable_rect b -> empty_rect b -> isNaN x = false -> isNaN y = false ->
  inBounds b x y = false.
Proof.
  intros (B1 & B2 & B3 & B4) [Hx | Hy] Nx Ny; unfold inBounds.
  - rewrite (axis_empty x _ _ B1 B2 Nx Hx). reflexivity.
  - rewrite (axis_empty y _ _ B3 B4 Ny Hy). destruct (_ || _); reflexivity.
Qed.

(** * Images that share their pixels *)

#[local] Close Scope float_scope.

(** A property that the iterations over the values of the loop keep holds
    after the loop. *)
Lemma fold_left_keep_in {A B : Type} (f : A -> B -> A) (P : A -> Prop) (l : list B) :
  (forall st v, In v l -> P st -> P (f st v)) ->
  forall st, P st -> P (fold_left f l st).
Proof.
  induction l as [|v l IH]; intros Hkeep st Hst; simpl; [exact Hst|].
  apply IH.
  - intros st' v' Hin. apply Hkeep. right; exact Hin.
  - apply Hkeep; [left; reflexivity | exact Hst].
Qed.

Lemma fold_left_same {A B : Type} (f g : A -> B -> A) (l : list B) (st : A) :
  (forall st v, f st v = g st v) -> fold_left f l st = fold_left g l st.
Proof.
  intros Hfg. revert st. induction l as [|v l IH]; intros st; simpl; [reflexivity|].
  rewrite Hfg. apply IH.
Qed.

(** The loop on a source that no iteration changes is the loop on a buffer
    of its own. *)
Lemma rows_own_buffer
  (binterpRGBA : RGBA -> Z -> Z -> RGBA -> float -> float -> RGBA)
  (a : Affine) (srcb : Rectangle) (r : RGBA) (b : Rectangle) (cur : RGBA) :
  Shared.rows binterpRGBA a srcb (fun _ => r) b cur =
  rows binterpRGBA a srcb (OwnBuffer r) b cur.
Proof. reflexivity. Qed.

Lemma rows_readSrc
  (binterpRGBA : RGBA -> Z -> Z -> RGBA -> float -> float -> RGBA)
  (a : Affine) (srcb : Rectangle) (s : srcBuffer) (b : Rectangle) (cur : RGBA) :
  Shared.rows binterpRGBA a srcb (readSrc s) b cur = rows binterpRGBA a srcb s b cur.
Proof. reflexivity. Qed.

Lemma rows_read_same
  (binterpRGBA : RGBA -> Z -> Z -> RGBA -> float -> float -> RGBA)
  (a : Affine) (srcb : Rectangle) (read read' : RGBA -> RGBA) (b : Rectangle) (cur : RGBA) :
  (forall st, read st = read' st) ->
  Shared.rows binterpRGBA a srcb read b cur = Shared.rows binterpRGBA a srcb read' b cur.
Proof.
  intros Hr. unfold Shared.rows. apply fold_left_same. intros st y.
  unfold Shared.row. apply fold_left_same. intros st' x.
  unfold Shared.pixel. now rewrite Hr.
Qed.

Lemma look_unshared (h : heap) (l : loc) (r : RGBA) :
  h l = IRGBA r -> Shared.look (Shared.unshared h) (Shared.mkView l (RGBA_Rect r)) = r.
Proof. intros Hl. unfold Shared.look, Shared.unshared. simpl. rewrite Hl. now destruct r. Qed.

Lemma see_unshared (h : heap) (l : loc) : Shared.see (Shared.unshared h) l = h l.
Proof.
  unfold Shared.see. simpl. destruct (h l) as [r|g] eqn:Hl; [|reflexivity].
  now rewrite (look_unshared h l r Hl).
Qed.

Section SharedPixels.

Variable binterpRGBA : RGBA -> Z -> Z -> RGBA -> float -> float -> RGBA.

(** On a store without sharing the two stores run the same call: the
    pipeline of the first part is the pipeline of this one on images that
    have pixels of their own. *)
Lemma Transform_unshared (a : Affine) (dst src : option loc) (h : heap) :
  exists e h' st',
    Transform binterpRGBA a dst src h = Ok (e, h') /\
    Shared.Transform binterpRGBA a dst src (Shared.unshared h) = Ok (e, st') /\
    forall l, Shared.see st' l = h' l.
Proof.
  unfold Transform, Shared.Transform.
  destruct dst as [d|]; [destruct src as [s|]|];
    try (eexists; exists h; eexists; split; [reflexivity|]; split; [reflexivity|];
         apply see_unshared).
  rewrite !see_unshared.
  assert (Hsrc : forall cur,
            Shared.srcRgba (Shared.unshared h) s d (Shared.mkView d (Bounds (h d))) cur =
            readSrc match h s with
                    | IRGBA r => if Nat.eqb s d then SameAsDst else OwnBuffer r
                    | IGeneric _ =>
                        OwnBuffer (draw_RGBA (NewRGBA (Bounds (h s))) (Bounds (h s)) (h s)
                                     (Min (Bounds (h s))))
                    end cur).
  { intros cur. unfold Shared.srcRgba. rewrite see_unshared. simpl.
    destruct (h s) as [rs|gs] eqn:Hs; [|reflexivity].
    destruct (Nat.eqb s d) eqn:Esd; [reflexivity|]. simpl. rewrite Esd.
    exact (look_unshared h s rs Hs). }
  simpl Shared.image_at.
  destruct (h d) as [r|g] eqn:Hd.
  - eexists; eexists; eexists; split; [reflexivity|]; split; [reflexivity|].
    intros l. simpl Bounds in *.
    rewrite (rows_read_same _ _ _ _ _ _ _ Hsrc), (look_unshared h d r Hd), rows_readSrc.
    match goal with |- context [rows ?f ?a0 ?sb ?sr ?b0 ?c0] =>
      generalize (rows f a0 sb sr b0 c0) end.
    intros out. unfold Shared.see, Shared.written, upd. simpl.
    destruct (Nat.eqb l d) eqn:El.
    + unfold Shared.look. simpl. rewrite Nat.eqb_refl. now destruct out.
    + destruct (h l) as [rl|gl] eqn:Hl; [|reflexivity].
      unfold Shared.look. simpl. rewrite El, Hl. now destruct rl.
  - eexists; eexists; eexists; split; [reflexivity|]; split; [reflexivity|].
    intros l. simpl Bounds in *.
    assert (Hs : forall cur : RGBA,
              sourceRGBA (h s) =
              readSrc match h s with
                      | IRGBA r => if Nat.eqb s d then SameAsDst else OwnBuffer r
                      | IGeneric _ =>
                          OwnBuffer (draw_RGBA (NewRGBA (Bounds (h s))) (Bounds (h s)) (h s)
                                       (Min (Bounds (h s))))
                      end cur).
    { intros cur. destruct (h s) as [rs|gs] eqn:Hs; [|reflexivity].
      destruct (Nat.eqb_spec s d) as [->|]; [congruence | reflexivity]. }
    rewrite (rows_read_same _ _ _ _ _ _ _ Hs), rows_readSrc.
    match goal with |- context [rows ?f ?a0 ?sb ?sr ?b0 ?c0] =>
      generalize (rows f a0 sb sr b0 c0) end.
    intros out. unfold Shared.see, Shared.drawn_back, upd. simpl.
    destruct (Nat.eqb l d) eqn:El; [reflexivity|].
    destruct (h l) as [rl|gl] eqn:Hl; [|reflexivity].
    unfold Shared.look. simpl. rewrite Hl. now destruct rl.
Qed.

End SharedPixels.

Section SharedContract.

Variable binterpRGBA : RGBA -> Z -> Z -> RGBA -> float -> float -> RGBA.

Hypothesis binterp_Rect : forall dst x y src sx sy,
  RGBA_Rect (binterpRGBA dst x y src sx sy) = RGBA_Rect dst.
Hypothesis binterp_frame : forall dst x y src sx sy x' y',
  (x', y') <> (x, y) ->
  RGBA_Pix (binterpRGBA dst x y src sx sy) x' y' = RGBA_Pix dst x' y'.

Section ReadLoop.

Variables (a : Affine) (srcb : Rectangle) (read : RGBA -> RGBA) (b : Rectangle).

Lemma read_pixel_Rect (y x : Z) (cur : RGBA) :
  RGBA_Rect (Shared.pixel binterpRGBA a srcb read y x cur) = RGBA_Rect cur.
Proof.
  unfold Shared.pixel. destruct (pt a x y) as [sx sy].
  destruct (inBounds srcb sx sy); [apply binterp_Rect | reflexivity].
Qed.

Lemma read_row_Rect (y : Z) (cur : RGBA) :
  RGBA_Rect (Shared.row binterpRGBA a srcb read b y cur) = RGBA_Rect cur.
Proof. unfold Shared.row. by_loop_induction read_pixel_Rect. Qed.

Lemma read_rows_Rect (cur : RGBA) :
  RGBA_Rect (Shared.rows binterpRGBA a srcb read b cur) = RGBA_Rect cur.
Proof. unfold Shared.rows. by_loop_induction read_row_Rect. Qed.

Variables (x y : Z).

Hypothesis untouched :
  inRect b x y = false \/ inBounds srcb (fst (pt a x y)) (snd (pt a x y)) = false.

(** An iteration of the loop leaves alone a pixel out of the bounds of the
    loop, and a pixel whose point fails the check. *)
Lemma read_pixel_keeps (y' x' : Z) (cur : RGBA) :
  inRect b x' y' = true ->
  RGBA_Pix (Shared.pixel binterpRGBA a srcb read y' x' cur) x y = RGBA_Pix cur x y.
Proof.
  intros Hin. unfold Shared.pixel.
  destruct (pt a x' y') as [sx sy] eqn:Ept.
  destruct (inBounds srcb sx sy) eqn:Eib; [|reflexivity].
  apply binterp_frame. intros Heq. injection Heq as -> ->.
  rewrite Ept in untouched. simpl in untouched.
  destruct untouched; congruence.
Qed.

Lemma read_rows_keeps (cur : RGBA) :
  RGBA_Pix (Shared.rows binterpRGBA a srcb read b cur) x y = RGBA_Pix cur x y.
Proof.
  unfold Shared.rows.
  apply (fold_left_keep_in
           (fun st y' => Shared.row binterpRGBA a srcb read b y' st)
           (fun st => RGBA_Pix st x y = RGBA_Pix cur x y)); [|reflexivity].
  intros st y' Hy Hst. unfold Shared.row.
  apply (fold_left_keep_in
           (fun st x' => Shared.pixel binterpRGBA a srcb read y' x' st)
           (fun st => RGBA_Pix st x y = RGBA_Pix cur x y)); [|exact Hst].
  intros st' x' Hx Hst'. rewrite read_pixel_keeps; [exact Hst'|].
  apply in_span in Hx, Hy. unfold inRect.
  apply andb_true_intro; split; [apply andb_true_intro; split|];
    [apply andb_true_intro; split|..];
    first [apply Z.leb_le; lia | apply Z.ltb_lt; lia].
Qed.

End ReadLoop.

(** With an [*image.RGBA] destination the call writes, of the whole store,
    only pixels of the buffer of the destination, inside its rectangle, whose
    point passes the bounds check. *)
Lemma Transform_RGBA_frame (a : Affine) (d s : loc) (st : Shared.Store) (dv : Shared.View) :
  Shared.image_at st d = Shared.VRGBA dv ->
  exists st',
    Shared.Transform binterpRGBA a (Some d) (Some s) st = Ok (None, st') /\
    Shared.changes_only dv st st' /\
    forall x y,
      inBounds (Bounds (Shared.see st s)) (fst (pt a x y)) (snd (pt a x y)) = false ->
      Shared.pixels st' (Shared.View_Pix dv) x y = Shared.pixels st (Shared.View_Pix dv) x y.
Proof.
  intros Hd. unfold Shared.Transform. rewrite Hd.
  eexists; split; [reflexivity|].
  assert (Hb : Bounds (Shared.see st d) = Shared.View_Rect dv).
  { unfold Shared.see. rewrite Hd. reflexivity. }
  rewrite Hb. unfold Shared.changes_only, Shared.written. simpl.
  repeat match goal with |- _ /\ _ => split end.
  - intros l w Hl. destruct (Nat.eqb_spec l d) as [->|]; [|exact Hl].
    rewrite read_rows_Rect. simpl. rewrite Hd in Hl. injection Hl as <-. now destruct dv.
  - intros k x y [Hk | Hout].
    + destruct (Nat.eqb_spec k (Shared.View_Pix dv)); [contradiction | reflexivity].
    + destruct (Nat.eqb_spec k (Shared.View_Pix dv)) as [->|]; [|reflexivity].
      rewrite read_rows_keeps; [reflexivity | left; exact Hout].
  - intros x y Hout. rewrite Nat.eqb_refl.
    rewrite read_rows_keeps; [reflexivity | right; exact Hout].
Qed.

(** What the call changes only in the buffer of the destination, an image
    on other pixels does not see. *)
Lemma changes_only_same_image (st st' : Shared.Store) (l : loc) (dv w : Shared.View) :
  Shared.changes_only dv st st' ->
  Shared.image_at st l = Shared.VRGBA w ->
  Shared.View_Pix w <> Shared.View_Pix dv ->
  Shared.same_image st st' l.
Proof.
  intros [Hval Hpix] Hl Hw. unfold Shared.same_image, Shared.see.
  rewrite (Hval l w Hl), Hl.
  split; [reflexivity|]. intros x y. simpl.
  rewrite Hpix by (left; exact Hw). reflexivity.
Qed.

(** X4: what [Transform] writes to.  With a destination that is an
    [*image.RGBA] the call returns nil; no value of the store changes its
    buffer or its rectangle; of all the pixels of the store only pixels of the
    buffer of [dst] inside [dst.Bounds()] whose point passes the bounds check
    can change; so every [*image.RGBA] on another buffer (the source among
    them, when it does not share the pixels of [dst]) has afterwards the
    bounds and the colors it had. *)
Theorem Transform_writes_dst_pixels_only
  (a : Affine) (d s : loc) (st : Shared.Store) (dv : Shared.View) :
  Shared.image_at st d = Shared.VRGBA dv ->
  exists st',
    Shared.Transform binterpRGBA a (Some d) (Some s) st = Ok (None, st') /\
    Shared.changes_only dv st st' /\
    (forall x y,
       inBounds (Bounds (Shared.see st s)) (fst (pt a x y)) (snd (pt a x y)) = false ->
       Shared.pixels st' (Shared.View_Pix dv) x y = Shared.pixels st (Shared.View_Pix dv) x y) /\
    (forall l w,
       Shared.image_at st l = Shared.VRGBA w ->
       Shared.View_Pix w <> Shared.View_Pix dv ->
       Shared.same_image st st' l).
Proof.
  intros Hd. destruct (Transform_RGBA_frame a d s st dv Hd) as (st' & HT & Hch & Hout).
  exists st'. repeat match goal with |- _ /\ _ => split end; try assumption.
  intros l w Hl Hw. exact (changes_only_same_image st st' l dv w Hch Hl Hw).
Qed.

(** X9: [TransformCenter] returns on every input (the nil tests come before
    the calls of [Bounds]), and with a destination that is an [*image.RGBA]
    it writes, as [Transform] does, only pixels of the buffer of [dst] inside
    its rectangle: an [*image.RGBA] on another buffer has afterwards the
    bounds and the colors it had. *)
Theorem TransformCenter_writes_dst_pixels_only
  (a : Affine) (dst src : option loc) (st : Shared.Store) :
  exists e st',
    Shared.TransformCenter binterpRGBA a dst src st = Ok (e, st') /\
    forall d dv,
      dst = Some d -> Shared.image_at st d = Shared.VRGBA dv ->
      Shared.changes_only dv st st' /\
      forall l w,
        Shared.image_at st l = Shared.VRGBA w ->
        Shared.View_Pix w <> Shared.View_Pix dv ->
        Shared.same_image st st' l.
Proof.
  unfold Shared.TransformCenter.
  assert (Hrefl : forall dv,
            Shared.changes_only dv st st /\
            forall l w,
              Shared.image_at st l = Shared.VRGBA w ->
              Shared.View_Pix w <> Shared.View_Pix dv ->
              Shared.same_image st st l).
  { intros dv. split; [split; [intros l w Hl; exact Hl | reflexivity]
                      | intros l w _ _; split; reflexivity]. }
  destruct dst as [d|]; [destruct src as [s|]|].
  - unfold Shared.callBounds, bind.
    destruct (Shared.image_at st d) as [dv|g] eqn:Hd.
    + destruct (Transform_RGBA_frame
                  (CenterFit a (Bounds (Shared.see st d)) (Bounds (Shared.see st s))) d s st dv Hd)
        as (st' & HT & Hch & _).
      exists None, st'. split; [exact HT|].
      intros d' dv' Hd' Hv. injection Hd' as <-.
      assert (dv' = dv) as -> by congruence.
      split; [exact Hch|]. intros l w Hl Hw.
      exact (changes_only_same_image st st' l dv w Hch Hl Hw).
    + unfold Shared.Transform. rewrite Hd.
      eexists; eexists; split; [reflexivity|].
      intros d' dv' Hd' Hv. injection Hd' as <-. congruence.
  - exists (Some "graphics: src is nil"%string), st. split; [reflexivity|].
    intros d' dv' _ _. exact (Hrefl dv').
  - exists (Some "graphics: dst is nil"%string), st. split; [reflexivity|].
    intros d' dv' Hd'. discriminate.
Qed.

(** A source that does not share the pixels of the destination is read as
    it was before the call. *)
Lemma srcRgba_unshared (st : Shared.Store) (s d : loc) (dv : Shared.View) (cur : RGBA) :
  Shared.image_at st d = Shared.VRGBA dv ->
  Shared.shares st s d = false ->
  Shared.srcRgba st s d dv cur = sourceRGBA (Shared.see st s).
Proof.
  intros Hd Hsh. unfold Shared.srcRgba, Shared.shares, Shared.see in *.
  rewrite Hd in Hsh.
  destruct (Shared.image_at st s) as [sv|g] eqn:Hs; [|reflexivity].
  destruct (Nat.eqb_spec s d) as [->|_].
  - assert (sv = dv) as -> by congruence. now rewrite Nat.eqb_refl in Hsh.
  - rewrite Hsh. reflexivity.
Qed.

(** With an [*image.RGBA] destination and a source on other pixels, a pixel
    of the destination is after the call what the loop on a source buffer
    of its own leaves there. *)
Lemma Transform_unshared_pixel
  (a : Affine) (d s : loc) (st : Shared.Store) (dv : Shared.View) (x y : Z) :
  Shared.image_at st d = Shared.VRGBA dv ->
  Shared.shares st s d = false ->
  inRect (Shared.View_Rect dv) x y = true ->
  exists st',
    Shared.Transform binterpRGBA a (Some d) (Some s) st = Ok (None, st') /\
    At (Shared.see st' d) x y =
    RGBA_Pix (rows binterpRGBA a (Bounds (Shared.see st s))
                (OwnBuffer (sourceRGBA (Shared.see st s)))
                (Shared.View_Rect dv) (Shared.look st dv)) x y.
Proof.
  intros Hd Hsh Hin. unfold Shared.Transform. rewrite Hd.
  eexists; split; [reflexivity|].
  assert (Hb : Bounds (Shared.see st d) = Shared.View_Rect dv).
  { unfold Shared.see. rewrite Hd. reflexivity. }
  rewrite Hb.
  rewrite (rows_read_same binterpRGBA a _ _ (fun _ => sourceRGBA (Shared.see st s)))
    by (intros cur; apply srcRgba_unshared; assumption).
  rewrite rows_own_buffer.
  unfold Shared.see at 1, Shared.written. simpl. rewrite !Nat.eqb_refl. simpl.
  rewrite (rows_Rect binterpRGBA binterp_Rect). simpl.
  rewrite Hin, Nat.eqb_refl. reflexivity.
Qed.

End SharedContract.

Section SharedResampling.

Variable binterpRGBA : RGBA -> Z -> Z -> RGBA -> float -> float -> RGBA.

Hypothesis binterp_Rect : forall dst x y src sx sy,
  RGBA_Rect (binterpRGBA dst x y src sx sy) = RGBA_Rect dst.
Hypothesis binterp_frame : forall dst x y src sx sy x' y',
  (x', y') <> (x, y) ->
  RGBA_Pix (binterpRGBA dst x y src sx sy) x' y' = RGBA_Pix dst x' y'.
Hypothesis binterp_reads_src : forall dst dst' x y src sx sy,
  RGBA_Pix (binterpRGBA dst x y src sx sy) x y =
  RGBA_Pix (binterpRGBA dst' x y src sx sy) x y.

(** X7: what [Transform] writes.  For a destination that is an
    [*image.RGBA] and a source that does not share its pixels (an image of
    another type, or an [*image.RGBA] on another buffer), a pixel [(x, y)] of
    the destination bounds whose point [a.pt(x, y)] passes the bounds check
    holds, after the call, the color the sampler computes for that pixel from
    the source buffer (the source itself, or its converted copy) at that
    point. *)
Theorem Transform_writes_sampled_pixel
  (a : Affine) (d s : loc) (st : Shared.Store) (dv : Shared.View) (x y : Z) :
  Shared.image_at st d = Shared.VRGBA dv ->
  Shared.shares st s d = false ->
  inRect (Shared.View_Rect dv) x y = true ->
  inBounds (Bounds (Shared.see st s)) (fst (pt a x y)) (snd (pt a x y)) = true ->
  exists st',
    Shared.Transform binterpRGBA a (Some d) (Some s) st = Ok (None, st') /\
    At (Shared.see st' d) x y =
    RGBA_Pix (binterpRGBA (Shared.look st dv) x y (sourceRGBA (Shared.see st s))
                (fst (pt a x y)) (snd (pt a x y))) x y.
Proof.
  intros Hd Hsh Hin Hsrc.
  destruct (Transform_unshared_pixel binterpRGBA binterp_Rect a d s st dv x y Hd Hsh Hin)
    as (st' & HT & Hat).
  exists st'. split; [exact HT|]. rewrite Hat.
  apply rows_sampled;
    [exact binterp_frame | exact Hsrc | intros cur; apply binterp_reads_src | exact Hin].
Qed.

(** A neutral matrix copies: a pixel of the destination that is a pixel of
    the source is sampled at its center, any other pixel is kept. *)
Lemma Transform_neutral
  (u : Affine) (d s : loc) (st : Shared.Store) (dv : Shared.View) (x y : Z) :
  neutral u ->
  Shared.image_at st d = Shared.VRGBA dv ->
  Shared.shares st s d = false ->
  representable_rect (Bounds (Shared.see st s)) -> pixel_coord x -> pixel_coord y ->
  inRect (Shared.View_Rect dv) x y = true ->
  exists st',
    Shared.Transform binterpRGBA u (Some d) (Some s) st = Ok (None, st') /\
    At (Shared.see st' d) x y =
    if inRect (Bounds (Shared.see st s)) x y
    then RGBA_Pix (binterpRGBA (Shared.look st dv) x y (sourceRGBA (Shared.see st s))
                     (float64_of_int x + 0.5)%float (float64_of_int y + 0.5)%float) x y
    else At (Shared.see st d) x y.
Proof.
  intros Hu Hd Hsh Hb Hx Hy Hin.
  pose proof (inBounds_pt_neutral u (Bounds (Shared.see st s)) x y Hu Hb Hx Hy) as Hib.
  pose proof (pt_neutral u x y Hu Hx Hy) as Hpt.
  destruct (Transform_unshared_pixel binterpRGBA binterp_Rect u d s st dv x y Hd Hsh Hin)
    as (st' & HT & Hat).
  exists st'. split; [exact HT|]. rewrite Hat.
  destruct (inRect (Bounds (Shared.see st s)) x y).
  - replace (float64_of_int x + 0.5)%float with (fst (pt u x y)) by now rewrite Hpt.
    replace (float64_of_int y + 0.5)%float with (snd (pt u x y)) by now rewrite Hpt.
    apply rows_sampled;
      [exact binterp_frame | exact Hib | intros cur; apply binterp_reads_src | exact Hin].
  - rewrite (rows_keeps binterpRGBA binterp_frame) by exact Hib.
    unfold Shared.see. rewrite Hd. simpl. rewrite Hin. reflexivity.
Qed.

(** X19: [I.Transform(dst, src)] resamples pixel on pixel.  For a
    destination that is an [*image.RGBA], a source that does not share its
    pixels and whose bounds float64 holds exactly, and a pixel [(x, y)] of the
    destination (coordinates of at most 52 bits): when [(x, y)] is a pixel of
    the source bounds it holds, after the call, the color the sampler
    computes from the source at the center [(x + 0.5, y + 0.5)]; otherwise it
    keeps its color. *)
Theorem Transform_identity
  (d s : loc) (st : Shared.Store) (dv : Shared.View) (x y : Z) :
  Shared.image_at st d = Shared.VRGBA dv ->
  Shared.shares st s d = false ->
  representable_rect (Bounds (Shared.see st s)) -> pixel_coord x -> pixel_coord y ->
  inRect (Shared.View_Rect dv) x y = true ->
  exists st',
    Shared.Transform binterpRGBA I (Some d) (Some s) st = Ok (None, st') /\
    At (Shared.see st' d) x y =
    if inRect (Bounds (Shared.see st s)) x y
    then RGBA_Pix (binterpRGBA (Shared.look st dv) x y (sourceRGBA (Shared.see st s))
                     (float64_of_int x + 0.5)%float (float64_of_int y + 0.5)%float) x y
    else At (Shared.see st d) x y.
Proof. intros. apply Transform_neutral; try assumption. apply neutral_I. Qed.

(** X20: [I.TransformCenter(dst, src)] on two images of the same bounds
    samples every pixel at its own center: the centering translations
    cancel.  For a destination that is an [*image.RGBA], a source that does
    not share its pixels, bounds float64 holds exactly and a pixel [(x, y)] of
    them (coordinates of at most 52 bits), the pixel holds, after the call,
    the color the sampler computes from the source at
    [(x + 0.5, y + 0.5)]. *)
Theorem TransformCenter_identity_same_bounds
  (d s : loc) (st : Shared.Store) (dv : Shared.View) (x y : Z) :
  Shared.image_at st d = Shared.VRGBA dv ->
  Shared.shares st s d = false ->
  Bounds (Shared.see st s) = Shared.View_Rect dv ->
  representable_rect (Shared.View_Rect dv) -> pixel_coord x -> pixel_coord y ->
  inRect (Shared.View_Rect dv) x y = true ->
  exists st',
    Shared.TransformCenter binterpRGBA I (Some d) (Some s) st = Ok (None, st') /\
    At (Shared.see st' d) x y =
    RGBA_Pix (binterpRGBA (Shared.look st dv) x y (sourceRGBA (Shared.see st s))
                (float64_of_int x + 0.5)%float (float64_of_int y + 0.5)%float) x y.
Proof.
  intros Hd Hsh Hbb Hb Hx Hy Hin.
  assert (Hdb : Bounds (Shared.see st d) = Shared.View_Rect dv).
  { unfold Shared.see. rewrite Hd. reflexivity. }
  unfold Shared.TransformCenter, Shared.callBounds, bind. rewrite Hbb, Hdb.
  destruct (Transform_neutral
              (CenterFit I (Shared.View_Rect dv) (Shared.View_Rect dv)) d s st dv x y)
    as (st' & HT & Hat); try assumption.
  - apply CenterFit_I_neutral, representable_int_rect, Hb.
  - rewrite Hbb. exact Hb.
  - exists st'. split; [exact HT|]. rewrite Hat, Hbb, Hin. reflexivity.
Qed.

End SharedResampling.

(** The aliasing, computed: on the strip and its [SubImage], moving the
    picture one pixel to the right reads at [(2, 0)] the pixel the loop has
    just written at [(1, 0)], and the source is changed with the
    destination. *)
Example Transform_reads_what_it_wrote :
  Shared.shares Shared.strip 1%nat 0%nat = true /\
  exists st',
    Shared.Transform nearestRGBA (Translate I 1 0) (Some 0%nat) (Some 1%nat) Shared.strip
    = Ok (None, st') /\
    (At (Shared.see st' 0%nat) 0 0, At (Shared.see st' 0%nat) 1 0, At (Shared.see st' 0%nat) 2 0)
    = (red, red, red) /\
    (At (Shared.see Shared.strip 1%nat) 1 0, At (Shared.see st' 1%nat) 1 0) = (green, red).
Proof.
  split; [reflexivity|].
  eexists; split; [reflexivity|]. split; vm_compute; reflexivity.
Qed.

Lemma Transform_writes_dst_pixels_only_witness :
  exists st',
    Shared.Transform nearestRGBA I (Some 0%nat) (Some 4%nat) Shared.demo = Ok (None, st') /\
    Shared.changes_only (Shared.mkView 0%nat (Rect 0 0 4 4)) Shared.demo st' /\
    (forall x y,
       inBounds (Bounds (Shared.see Shared.demo 4%nat)) (fst (pt I x y)) (snd (pt I x y)) = false ->
       Shared.pixels st' 0%nat x y = Shared.pixels Shared.demo 0%nat x y) /\
    (forall l w,
       Shared.image_at Shared.demo l = Shared.VRGBA w ->
       Shared.View_Pix w <> 0%nat ->
       Shared.same_image Shared.demo st' l).
Proof.
  apply (Transform_writes_dst_pixels_only nearestRGBA nearest_Rect nearest_frame
           I 0%nat 4%nat Shared.demo (Shared.mkView 0%nat (Rect 0 0 4 4))).
  reflexivity.
Defined.

Lemma TransformCenter_writes_dst_pixels_only_witness :
  exists e st',
    Shared.TransformCenter nearestRGBA I (Some 0%nat) (Some 4%nat) Shared.demo = Ok (e, st') /\
    forall d dv,
      Some 0%nat = Some d -> Shared.image_at Shared.demo d = Shared.VRGBA dv ->
      Shared.changes_only dv Shared.demo st' /\
      forall l w,
        Shared.image_at Shared.demo l = Shared.VRGBA w ->
        Shared.View_Pix w <> Shared.View_Pix dv ->
        Shared.same_image Shared.demo st' l.
Proof.
  exact (TransformCenter_writes_dst_pixels_only nearestRGBA nearest_Rect nearest_frame
           I (Some 0%nat) (Some 4%nat) Shared.demo).
Defined.

Lemma Transform_writes_sampled_pixel_witness :
  exists st',
    Shared.Transform nearestRGBA I (Some 0%nat) (Some 1%nat) Shared.demo = Ok (None, st') /\
    At (Shared.see st' 0%nat) 1 0 =
    RGBA_Pix (nearestRGBA (Shared.look Shared.demo (Shared.mkView 0%nat (Rect 0 0 4 4))) 1 0
                (sourceRGBA (Shared.see Shared.demo 1%nat))
                (fst (pt I 1 0)) (snd (pt I 1 0))) 1 0.
Proof.
  apply (Transform_writes_sampled_pixel nearestRGBA nearest_Rect nearest_frame nearest_reads_src
           I 0%nat 1%nat Shared.demo (Shared.mkView 0%nat (Rect 0 0 4 4)) 1 0).
  - reflexivity.
  - reflexivity.
  - reflexivity.
  - vm_compute; reflexivity.
Defined.

Lemma Transform_identity_witness :
  exists st',
    Shared.Transform nearestRGBA I (Some 0%nat) (Some 1%nat) Shared.demo = Ok (None, st') /\
    At (Shared.see st' 0%nat) 1 1 =
    if inRect (Bounds (Shared.see Shared.demo 1%nat)) 1 1
    then RGBA_Pix (nearestRGBA (Shared.look Shared.demo (Shared.mkView 0%nat (Rect 0 0 4 4))) 1 1
                     (sourceRGBA (Shared.see Shared.demo 1%nat))
                     (float64_of_int 1 + 0.5)%float (float64_of_int 1 + 0.5)%float) 1 1
    else At (Shared.see Shared.demo 0%nat) 1 1.
Proof.
  apply (Transform_identity nearestRGBA nearest_Rect nearest_frame nearest_reads_src
           0%nat 1%nat Shared.demo (Shared.mkView 0%nat (Rect 0 0 4 4)) 1 1).
  - reflexivity.
  - reflexivity.
  - unfold representable_rect, representable. simpl. lia.
  - unfold pixel_coord; lia.
  - unfold pixel_coord; lia.
  - reflexivity.
Defined.

Lemma TransformCenter_identity_same_bounds_witness :
  exists st',
    Shared.TransformCenter nearestRGBA I (Some 3%nat) (Some 1%nat) Shared.demo = Ok (None, st') /\
    At (Shared.see st' 3%nat) 1 0 =
    RGBA_Pix (nearestRGBA (Shared.look Shared.demo (Shared.mkView 3%nat (Rect 0 0 2 2))) 1 0
                (sourceRGBA (Shared.see Shared.demo 1%nat))
                (float64_of_int 1 + 0.5)%float (float64_of_int 0 + 0.5)%float) 1 0.
Proof.
  apply (TransformCenter_identity_same_bounds
           nearestRGBA nearest_Rect nearest_frame nearest_reads_src
           3%nat 1%nat Shared.demo (Shared.mkView 3%nat (Rect 0 0 2 2)) 1 0).
  - reflexivity.
  - reflexivity.
  - reflexivity.
  - unfold representable_rect, representable. simpl. lia.
  - unfold pixel_coord; lia.
  - unfold pixel_coord; lia.
  - reflexivity.
Defined.

(** * The properties on examples *)

Lemma Mul_identity_witness :
  affine_eqb (Mul skew I) skew = true /\ affine_eqb (Mul I skew) skew = true.
Proof. apply (Mul_identity skew). repeat split; reflexivity. Defined.

Lemma builders_neutral_witness :
  affine_eqb (Scale skew 1 1) skew = true /\
  affine_eqb (Translate skew 0 0) skew = true /\
  affine_eqb (Shear skew 0 0) skew = true /\
  affine_eqb (Rotate sincos_of_zero skew 0) skew = true.
Proof.
  apply (builders_neutral sincos_of_zero skew 0%float).
  - repeat split; reflexivity.
  - reflexivity.
Defined.

Lemma pt_identity_is_pixel_center_witness :
  pt I 3 4 = ((float64_of_int 3 + 0.5)%float, (float64_of_int 4 + 0.5)%float) /\
  exists qx qy,
    real_of_float (float64_of_int 3 + 0.5)%float = Some qx /\
    real_of_float (float64_of_int 4 + 0.5)%float = Some qy /\
    (qx == inject_Z 3 + (1 # 2))%Q /\ (qy == inject_Z 4 + (1 # 2))%Q.
Proof.
  apply (pt_identity_is_pixel_center 3 4); unfold pixel_coord; lia.
Defined.

Lemma inBounds_pt_identity_witness :
  inBounds (Rect 0 0 2 2) (fst (pt I 1 2)) (snd (pt I 1 2)) = inRect (Rect 0 0 2 2) 1 2.
Proof.
  apply (inBounds_pt_identity (Rect 0 0 2 2) 1 2).
  - unfold representable_rect, representable. simpl. lia.
  - unfold pixel_coord; lia.
  - unfold pixel_coord; lia.
Defined.

Lemma inBounds_at_integers_witness :
  inBounds (Rect 0 0 2 2) (float64_of_int 2) (float64_of_int 1) = inRect (Rect 0 0 2 2) 2 1.
Proof.
  apply (inBounds_at_integers (Rect 0 0 2 2) 2 1).
  - unfold representable_rect, representable. simpl. lia.
  - unfold representable; lia.
  - unfold representable; lia.
Defined.

Lemma inBounds_empty_rectangle_witness :
  inBounds (Rect 2 0 2 5) 2 1 = false.
Proof.
  apply (inBounds_empty_rectangle (Rect 2 0 2 5) 2%float 1%float).
  - unfold representable_rect, representable. simpl. lia.
  - left. simpl. lia.
  - reflexivity.
  - reflexivity.
Defined.

Lemma pt_Translate_identity_witness :
  pt (Translate I 2 3) 1 0 =
  ((float64_of_int 1 + 0.5 + - 2)%float, (float64_of_int 0 + 0.5 + - 3)%float).
Proof.
  apply (pt_Translate_identity 2%float 3%float 1 0).
  - reflexivity.
  - reflexivity.
  - unfold pixel_coord; lia.
  - unfold pixel_coord; lia.
Defined.

Lemma Center_identity_witness : affine_eqb (Center I 1.5 2) I = true.
Proof. apply (Center_identity 1.5%float 2%float); reflexivity. Defined.

Lemma CenterFit_identity_same_rectangle_witness :
  affine_eqb (CenterFit I (Rect 0 0 4 3) (Rect 0 0 4 3)) I = true.
Proof.
  apply (CenterFit_identity_same_rectangle (Rect 0 0 4 3)).
  unfold int_rect, is_int. simpl. lia.
Defined.
